(** * stereo_slam reconstruction: the incremental cloud merge of
      [reconstruction::ReconstructionBase::build3D]

    A shallow embedding of [src/reconstruction/base.cpp].  The C++ [float]
    is IEEE-754 binary32 and [double] binary64, both taken from the
    parametric specification of the Standard Library ([SpecFloat]), so every
    definition below computes.  A point cloud is the list of its points, a
    write [acc->points[i] = p] is a list update, [push_back] appends.  PCL's
    kd-tree, filters, concave hull and rigid transforms are collaborators
    that the source only calls; they enter as an interface or as section
    variables. *)

From Stdlib Require Import ZArith List Bool Lia String Ascii.
From Stdlib Require Import Floats.SpecFloat.
From stdpp Require Import base list.
Import ListNotations.

(** ** Machine numbers *)

Definition float : Type := spec_float.
Definition double : Type := spec_float.

(** binary32, the C++ [float]. *)
Module F32.
Definition prec : Z := 24.
Definition emax : Z := 128.
Definition add : float -> float -> float := SFadd prec emax.
Definition sub : float -> float -> float := SFsub prec emax.
Definition mul : float -> float -> float := SFmul prec emax.
Definition div : float -> float -> float := SFdiv prec emax.
Definition sqrt : float -> float := SFsqrt prec emax.
Definition ltb : float -> float -> bool := SFltb.
Definition eqb : float -> float -> bool := SFeqb.
(** Integer to [float] conversion (round to nearest even). *)
Definition of_int (n : Z) : float := binary_normalize prec emax n 0 false.
(** The integer part of a finite [float], rounding towards zero. *)
Definition trunc (v : float) : Z :=
  match v with
  | S754_finite s m e =>
      let mag := match e with
                 | Zneg k => Z.shiftr (Zpos m) (Zpos k)
                 | _ => Z.shiftl (Zpos m) e
                 end in
      if s then (- mag)%Z else mag
  | _ => 0%Z
  end.
(** [float] to [uint8_t].  C++ defines the conversion only when the
    integer part fits; x86-64 converts to a 32-bit integer (cvttss2si,
    which yields 0x80000000 for NaN and out-of-range input) and keeps
    the low byte. *)
Definition to_uint8 (v : float) : Z :=
  match v with
  | S754_finite _ _ _ =>
      let t := trunc v in
      if ((- 2 ^ 31 <=? t) && (t <? 2 ^ 31))%Z then (t mod 256)%Z else 0%Z
  | _ => 0%Z
  end.
End F32.

(** binary64, the C++ [double]. *)
Module F64.
Definition prec : Z := 53.
Definition emax : Z := 1024.
Definition mul : double -> double -> double := SFmul prec emax.
Definition div : double -> double -> double := SFdiv prec emax.
Definition of_int (n : Z) : double := binary_normalize prec emax n 0 false.
(** Widening a [float]: exact. *)
Definition of_float (v : float) : double :=
  match v with
  | S754_finite s m e => binary_round prec emax s m e
  | _ => v
  end.
(** Narrowing to [float]: rounds to nearest even. *)
Definition to_float (v : double) : float :=
  match v with
  | S754_finite s m e => binary_round F32.prec F32.emax s m e
  | _ => v
  end.
End F64.

#[export] Instance float_inhabited : Inhabited spec_float := populate (S754_zero false).

Definition f_zero : float := S754_zero false.
Definition f_one : float := F32.of_int 1.
Definition f_two : float := F32.of_int 2.

(** ** Point types *)

(** [pcl::PointXY]. *)
Record PointXY : Type := mkXY { xy_x : float; xy_y : float }.

(** [pcl::PointXYZRGB].  The colour is a [float] that the code only ever
    reads and writes through [reinterpret_cast<int*>]; the field holds that
    [int]. *)
Record PointRGB : Type :=
  mkRGB { c_x : float; c_y : float; c_z : float; c_rgb : Z }.

(** [reconstruction::PointXYZRGBW]; [w] is the blended flag. *)
Record PointXYZRGBW : Type :=
  mkW { x : float; y : float; z : float; rgb : Z; w : float }.

Abbreviation PointCloudXY := (list PointXY).
Abbreviation PointCloudRGB := (list PointRGB).
Abbreviation PointCloudXYZW := (list PointXYZRGBW).

(** Modelled from the spec: the declaration of [PointXYZRGBW] lives in
    reconstruction/base.h, which is not among the sources.  The spec has a
    point that was appended without blending carry blended-flag 0, so the
    default constructor clears [w]; the other fields are cleared alike. *)
Definition PointXYZRGBW_default : PointXYZRGBW :=
  {| x := f_zero; y := f_zero; z := f_zero; rgb := 0%Z; w := f_zero |}.

#[export] Instance PointXYZRGBW_inhabited : Inhabited PointXYZRGBW :=
  populate PointXYZRGBW_default.

Definition PointRGB_default : PointRGB :=
  {| c_x := f_zero; c_y := f_zero; c_z := f_zero; c_rgb := 0%Z |}.

#[export] Instance PointRGB_inhabited : Inhabited PointRGB :=
  populate PointRGB_default.

(** ** The spatial index *)

(** [pcl::KdTreeFLANN<PointXY>] after [setInputCloud pts].  Both queries
    fill an index vector and a squared-distance vector of equal length and
    return that length; the model returns the list of pairs. *)
Class KdTreeFLANN : Type := {
  (** [radiusSearch (sp, radius, idx, sqr_dist, max_nn)] *)
  radiusSearch : PointCloudXY -> PointXY -> double -> nat -> list (nat * float);
  (** [nearestKSearch (sp, k, idx, sqr_dist)] *)
  nearestKSearch : PointCloudXY -> PointXY -> nat -> list (nat * float)
}.

(** FLANN's [L2_Simple] distance on two coordinates, accumulated in
    [float]. *)
Definition sqr_dist (a b : PointXY) : float :=
  let dx := F32.sub (xy_x a) (xy_x b) in
  let dy := F32.sub (xy_y a) (xy_y b) in
  F32.add (F32.add f_zero (F32.mul dx dx)) (F32.mul dy dy).

(** The squared radius a query is run with: PCL squares the [double]
    radius and narrows the square. *)
Definition sqr_radius (radius : double) : float :=
  F64.to_float (F64.mul radius radius).

(** ** Colour blending (lines 296-313 and 392-408) *)

(** [(rgb >> 16) & 0xff], [(rgb >> 8) & 0xff], [rgb & 0xff]. *)
Definition red (c : Z) : Z := Z.land (Z.shiftr c 16) 255.
Definition green (c : Z) : Z := Z.land (Z.shiftr c 8) 255.
Definition blue (c : Z) : Z := Z.land c 255.

(** [alpha = (max_contour_dist - sqrt(contour_squared_dist[0])) / max_contour_dist] *)
Definition blend_alpha (max_contour_dist contour_sq : float) : float :=
  F32.div (F32.sub max_contour_dist (F32.sqrt contour_sq)) max_contour_dist.

(** [cloud_c = (1-alpha)*acc_c + alpha*cloud_c], evaluated in [float] and
    stored in a [uint8_t]. *)
Definition blend_channel (alpha : float) (acc_c cloud_c : Z) : Z :=
  F32.to_uint8
    (F32.add (F32.mul (F32.sub (F32.of_int 1) alpha) (F32.of_int acc_c))
             (F32.mul alpha (F32.of_int cloud_c))).

(** [(cloud_r << 16) | (cloud_g << 8) | cloud_b] *)
Definition pack_rgb (r g b : Z) : Z :=
  Z.lor (Z.lor (Z.shiftl r 16) (Z.shiftl g 8)) b.

Definition blend_rgb (max_contour_dist contour_sq : float) (acc_rgb cloud_rgb : Z) : Z :=
  let alpha := blend_alpha max_contour_dist contour_sq in
  pack_rgb (blend_channel alpha (red acc_rgb) (red cloud_rgb))
           (blend_channel alpha (green acc_rgb) (green cloud_rgb))
           (blend_channel alpha (blue acc_rgb) (blue cloud_rgb)).

(** ** One merge pass (lines 218-414) *)

(** What a run of the loop body did besides changing the accumulator:
    evaluated the blend weight (lines 307, 402), warned about a missing
    contour neighbour (line 318), ran the border test (lines 322-330). *)
Inductive event : Type :=
| EvAlpha
| EvWarn
| EvBorderTest (is_border : bool).

(** [std::min_element] over a vector, as an offset from [begin()]: a scan
    from the left that moves to a later position only on a strict [<]. *)
Fixpoint min_element_from (best : nat) (best_v : float) (i : nat) (l : list float) : nat :=
  match l with
  | [] => best
  | v :: l' =>
      if F32.ltb v best_v then min_element_from i v (S i) l'
      else min_element_from best best_v (S i) l'
  end.

Definition min_element (l : list float) : nat :=
  match l with
  | [] => 0
  | v :: l' => min_element_from 0 v 1 l'
  end.

Definition xy_of_cloud (pt : PointRGB) : PointXY :=
  {| xy_x := c_x pt; xy_y := c_y pt |}.

Definition xy_of_acc (q : PointXYZRGBW) : PointXY :=
  {| xy_x := x q; xy_y := y q |}.

(** Lines 259-263: a default-constructed point that receives the cloud
    point's coordinates and colour. *)
Definition extract_point (pt : PointRGB) : PointXYZRGBW :=
  {| x := c_x pt; y := c_y pt; z := c_z pt; rgb := c_rgb pt;
     w := w PointXYZRGBW_default |}.

Section MergePass.
Context `{KdTreeFLANN}.

(** The clouds the three kd-trees of a pass are built on, the cloud being
    merged, and the two distances of the pass. *)
Variable acc_xy : PointCloudXY.
Variable acc_contour_xy : PointCloudXY.
Variable cloud : PointCloudRGB.
Variable max_dist : float.
Variable max_contour_dist : float.

Definition cloud_xy : PointCloudXY := map xy_of_cloud cloud.

(** [2*max_dist], passed where PCL expects a [double]. *)
Definition coverage_radius : double := F64.of_float (F32.mul f_two max_dist).

(** Lines 274-284: the z of the point after the loop over the matches;
    [acc_overlap_idx] ends up equal to [neighbor_idx]. *)
Definition filter_z (acc : PointCloudXYZW) (neighbor_idx : list nat) (pz : float) : float :=
  fold_left (fun pz i => F32.div (F32.add pz (z (acc !!! i))) f_two) neighbor_idx pz.

(** Lines 290-319: the colour of the point after the blending step. *)
Definition blend_point (sp : PointXY) (p_acc p : PointXYZRGBW) : Z * list event :=
  match nearestKSearch acc_contour_xy sp 1 with
  | (_, contour_sq) :: _ =>
      (blend_rgb max_contour_dist contour_sq (rgb p_acc) (rgb p), [EvAlpha])
  | [] => (rgb p, [EvWarn])
  end.

(** Lines 322-330. *)
Definition is_border (neighbor_squared_dist : list float) : bool :=
  forallb (fun d => negb (F32.ltb d (F32.mul max_dist max_dist))) neighbor_squared_dist.

(** Lines 271-356, the branch taken when the radius search found the
    (non-empty) list [nbrs] of matches. *)
Definition merge_overlap (pt : PointRGB) (nbrs : list (nat * float))
    (acc : PointCloudXYZW) : PointCloudXYZW * list event :=
  let sp := xy_of_cloud pt in
  let p := extract_point pt in
  let neighbor_idx := map fst nbrs in
  let neighbor_squared_dist := map snd nbrs in
  let pz := filter_z acc neighbor_idx (z p) in
  let min_index := min_element neighbor_squared_dist in
  let primary := neighbor_idx !!! min_index in
  let p_acc := acc !!! primary in
  let '(prgb, evs) := blend_point sp p_acc p in
  let border := is_border neighbor_squared_dist in
  if border then
    (acc ++ [ {| x := c_x pt; y := c_y pt; z := pz; rgb := prgb; w := f_one |} ],
     evs ++ [EvBorderTest true])
  else
    (<[ primary := {| x := x p_acc; y := y p_acc; z := pz; rgb := prgb; w := f_one |} ]> acc,
     evs ++ [EvBorderTest false]).

(** Lines 266-365: insert the point or update the accumulator; also
    yields [acc_overlap_idx]. *)
Definition insert_or_update (pt : PointRGB) (acc : PointCloudXYZW)
    : PointCloudXYZW * list nat * list event :=
  match radiusSearch acc_xy (xy_of_cloud pt) coverage_radius 10 with
  | [] => (acc ++ [extract_point pt], [], [])
  | nbrs => let '(acc', evs) := merge_overlap pt nbrs acc in (acc', map fst nbrs, evs)
  end.

(** Lines 370-412: one turn of the fix-up loop, for the accumulator
    index [i]. *)
Definition fix_color (i : nat) (acc : PointCloudXYZW) : PointCloudXYZW * list event :=
  let p_acc := acc !!! i in
  if F32.eqb (w p_acc) f_one then (acc, [])
  else
    let sp := xy_of_acc p_acc in
    match nearestKSearch cloud_xy sp 1 with
    | (ci, _) :: _ =>
        let p_cloud := cloud !!! ci in
        match nearestKSearch acc_contour_xy sp 1 with
        | (_, contour_sq) :: _ =>
            (<[ i := {| x := x p_acc; y := y p_acc; z := z p_acc;
                        rgb := blend_rgb max_contour_dist contour_sq (rgb p_acc) (c_rgb p_cloud);
                        w := f_one |} ]> acc,
             [EvAlpha])
        | [] => (acc, [])
        end
    | [] => (acc, [])
    end.

(** Lines 367-413. *)
Fixpoint fix_colors (acc_overlap_idx : list nat) (acc : PointCloudXYZW)
    : PointCloudXYZW * list event :=
  match acc_overlap_idx with
  | [] => (acc, [])
  | i :: rest =>
      let '(acc1, e1) := fix_color i acc in
      let '(acc2, e2) := fix_colors rest acc1 in
      (acc2, e1 ++ e2)
  end.

(** Lines 251-414 for one cloud point: the body of the merge loop. *)
Definition merge_point (pt : PointRGB) (acc : PointCloudXYZW)
    : PointCloudXYZW * list event :=
  let '(acc1, acc_overlap_idx, e1) := insert_or_update pt acc in
  let '(acc2, e2) := fix_colors acc_overlap_idx acc1 in
  (acc2, e1 ++ e2).

(** Lines 250-414: "Merge the current cloud with the accumulated". *)
Fixpoint merge_points (pts : list PointRGB) (acc : PointCloudXYZW)
    : PointCloudXYZW * list event :=
  match pts with
  | [] => (acc, [])
  | pt :: rest =>
      let '(acc1, e1) := merge_point pt acc in
      let '(acc2, e2) := merge_points rest acc1 in
      (acc2, e1 ++ e2)
  end.

Definition merge_cloud (acc : PointCloudXYZW) : PointCloudXYZW * list event :=
  merge_points cloud acc.

(** Lines 222-248: the largest contour distance among the cloud points
    that overlap the accumulator. *)
Definition max_contour_step (m : float) (pt : PointRGB) : float :=
  let sp := xy_of_cloud pt in
  match radiusSearch acc_xy sp coverage_radius 1 with
  | [] => m
  | _ :: _ =>
      match nearestKSearch acc_contour_xy sp 1 with
      | (_, contour_sq) :: _ =>
          let dist := F32.sqrt contour_sq in
          if F32.ltb m dist then dist else m
      | [] => m
      end
  end.

Definition get_max_contour_dist : float :=
  fold_left max_contour_step cloud f_zero.
End MergePass.

(** Lines 218-220: clear every blended flag. *)
Definition reset_w (acc : PointCloudXYZW) : PointCloudXYZW :=
  map (fun q => {| x := x q; y := y q; z := z q; rgb := rgb q; w := f_zero |}) acc.

(** ** The pipeline: [setParameters], [readPoses], [build3D] *)

(** How a call ends: it returns, an exception leaves it, or it spins
    forever. *)
Inductive outcome (A : Type) : Type :=
| Returns (a : A)
| Throws
| Diverges.
Arguments Returns {A} a.
Arguments Throws {A}.
Arguments Diverges {A}.

Definition bind {A B : Type} (o : outcome A) (k : A -> outcome B) : outcome B :=
  match o with
  | Returns a => k a
  | Throws => Throws
  | Diverges => Diverges
  end.

(** [tf::Transform], built from a translation and a quaternion. *)
Record Transform : Type :=
  mkTransform { t_x : double; t_y : double; t_z : double;
                q_x : double; q_y : double; q_z : double; q_w : double }.

(** [Params], as [setParameters] fills it from the working directory (the
    output directory it also creates plays no part in [build3D]). *)
Record Params : Type :=
  mkParams { work_dir : string; clouds_dir : string;
             output_dir : string; graph_file : string }.

Definition setParameters (dir : string) : Params :=
  let dir :=
    match String.get (String.length dir - 1) dir with
    | Some "/"%char => dir
    | _ => String.append dir "/"
    end in
  {| work_dir := dir;
     clouds_dir := String.append dir "clouds/";
     output_dir := String.append dir "clouds/output/";
     graph_file := String.append dir "graph_vertices.txt" |}.

(** The files a run can see.  [fs_polls path] is how many tests
    [fs::exists path] in a row find the path before one finds it gone:
    [Some 0] for a path that is not there, [Some n] for one that another
    process removes after [n] tests, [None] for one that is never removed.
    Then the lines of a text file that can be opened and the cloud of a PCD
    file that can be loaded, as they are when the file is read. *)
Record FileSystem : Type :=
  mkFS { fs_polls : string -> option nat;
         fs_lines : string -> option (list string);
         fs_pcd : string -> option PointCloudRGB }.

(** The fields [getline (ss, value, ',')] yields in turn: a field ends at a
    comma or at the end of the line, and no field starts at the end. *)
Fixpoint fields_from (s value : string) : list string :=
  match s with
  | EmptyString => [value]
  | String c rest =>
      if Ascii.eqb c ","%char then
        value :: match rest with
                 | EmptyString => []
                 | String _ _ => fields_from rest EmptyString
                 end
      else fields_from rest (String.append value (String c EmptyString))
  end.

Definition split_fields (line : string) : list string :=
  match line with
  | EmptyString => []
  | String _ _ => fields_from line EmptyString
  end.

(** The locals of the line loop of [readPoses] (lines 499-501). *)
Record pose_vars : Type :=
  mkVars { cloud_name : string;
           v_x : double; v_y : double; v_z : double;
           v_qx : double; v_qy : double; v_qz : double; v_qw : double }.

Section ReadPoses.
(** [boost::lexical_cast<double>]; [None] when it throws. *)
Variable lexical_cast : string -> option double.
(** What the uninitialised [double]s of lines 499-501 hold when the loop
    body is entered: [indeterminate k i] for line number [k] (from 0) and
    local number [i] (0 for [x] up to 6 for [qw]).  The language leaves the
    values open; compiled code usually finds in each local what the line
    before left there. *)
Variable indeterminate : nat -> nat -> double.

Definition cast (value : string) (k : double -> pose_vars) : outcome pose_vars :=
  match lexical_cast value with
  | Some d => Returns (k d)
  | None => Throws
  end.

(** Lines 505-520, for field number [i]. *)
Definition read_field (i : nat) (value : string) (v : pose_vars) : outcome pose_vars :=
  match v with
  | mkVars name vx vy vz vqx vqy vqz vqw =>
      if i =? 1 then Returns (mkVars (String.append value ".pcd") vx vy vz vqx vqy vqz vqw)
      else if i =? 5 then cast value (fun d => mkVars name d vy vz vqx vqy vqz vqw)
      else if i =? 6 then cast value (fun d => mkVars name vx d vz vqx vqy vqz vqw)
      else if i =? 7 then cast value (fun d => mkVars name vx vy d vqx vqy vqz vqw)
      else if i =? 8 then cast value (fun d => mkVars name vx vy vz d vqy vqz vqw)
      else if i =? 9 then cast value (fun d => mkVars name vx vy vz vqx d vqz vqw)
      else if i =? 10 then cast value (fun d => mkVars name vx vy vz vqx vqy d vqw)
      else if i =? 11 then cast value (fun d => mkVars name vx vy vz vqx vqy vqz d)
      else Returns v
  end.

(** Lines 503-522. *)
Fixpoint read_fields (i : nat) (fields : list string) (v : pose_vars) : outcome pose_vars :=
  match fields with
  | [] => Returns v
  | value :: rest => bind (read_field i value v) (read_fields (S i) rest)
  end.

(** Lines 499-527: line number [k] of the poses file.  The name starts
    out empty, the seven numbers are not initialised. *)
Definition read_line (k : nat) (line : string) : outcome (string * Transform) :=
  let v0 := mkVars EmptyString (indeterminate k 0) (indeterminate k 1) (indeterminate k 2)
                   (indeterminate k 3) (indeterminate k 4) (indeterminate k 5)
                   (indeterminate k 6) in
  bind (read_fields 0 (split_fields line) v0) (fun v =>
    Returns (cloud_name v,
             mkTransform (v_x v) (v_y v) (v_z v) (v_qx v) (v_qy v) (v_qz v) (v_qw v))).

(** Lines 497-528.  Every line read so far has added one pose, so the
    number of the next line is the size of [cloud_poses]. *)
Fixpoint read_lines (lines : list string) (cloud_poses : list (string * Transform))
    : outcome (list (string * Transform)) :=
  match lines with
  | [] => Returns cloud_poses
  | line :: rest =>
      bind (read_line (length cloud_poses) line)
           (fun pose => read_lines rest (cloud_poses ++ [pose]))
  end.

(** [readPoses]: the flag it returns and the vector it fills.  The loop of
    line 492 tests for the lock file until a test finds it gone, and never
    ends when the lock is never removed.  A poses file that cannot be
    opened leaves the stream failed, and the first [getline] ends the
    loop. *)
Definition readPoses (params : Params) (fs : FileSystem)
    : outcome (bool * list (string * Transform)) :=
  match fs_polls fs (String.append (work_dir params) ".graph.block") with
  | None => Diverges
  | Some _ =>
      let lines := match fs_lines fs (graph_file params) with
                   | Some ls => ls
                   | None => []
                   end in
      bind (read_lines lines []) (fun cloud_poses => Returns (true, cloud_poses))
  end.
End ReadPoses.

(** What a run of [build3D] did to the outside: the cloud files it tried to
    load, in order, and the files it saved. *)
Record run : Type :=
  mkRun { loaded : list string; saved : list (string * PointCloudRGB) }.

(** [pcl::copyPointCloud] between point types: the common fields are
    copied, the others keep their default. *)
Definition to_XYZW (pt : PointRGB) : PointXYZRGBW := extract_point pt.
Definition to_RGB (q : PointXYZRGBW) : PointRGB :=
  {| c_x := x q; c_y := y q; c_z := z q; c_rgb := rgb q |}.

(** Lines 100-104. *)
Definition voxel_size : float :=
  F64.to_float (F64.div (F64.of_int 5) (F64.of_int 1000)).
Definition max_dist_of (voxel : float) : float :=
  F32.sqrt (F32.div (F32.mul voxel voxel) f_two).

Section Build3D.
Context `{KdTreeFLANN}.
Variable lexical_cast : string -> option double.
Variable indeterminate : nat -> nat -> double.
(** Lines 130-153: NaN removal, voxel grid, outlier removal. *)
Variable clean : PointCloudRGB -> PointCloudRGB.
(** Lines 170-174 and 417: [Eigen::Affine3d], the pose of the first cloud
    seen from another one, inversion, [pcl::transformPointCloud]. *)
Variable Affine3d : Type.
Variable relative_pose : Transform -> Transform -> Affine3d.
Variable inverse : Affine3d -> Affine3d.
Variable transformPointCloud : PointCloudXYZW -> Affine3d -> PointCloudXYZW.
(** Lines 182-202: coarse voxel grid, projection, concave hull. *)
Variable contour : float -> PointCloudXYZW -> PointCloudXY.
(** Lines 426-441: the filters run on the output cloud. *)
Variable final_filter : float -> PointCloudRGB -> PointCloudRGB.

Variable params : Params.
Variable fs : FileSystem.

(** Lines 165-417: merge one cleaned cloud into a non-empty
    accumulator. *)
Definition merge_pass (tf0 tfi : Transform) (cloud : PointCloudRGB)
    (acc : PointCloudXYZW) : PointCloudXYZW :=
  let max_dist := max_dist_of voxel_size in
  let tfn0 := relative_pose tfi tf0 in
  let acc := transformPointCloud acc tfn0 in
  let acc_xy := map xy_of_acc acc in
  let acc_contour_xy := contour voxel_size acc in
  let acc := reset_w acc in
  let max_contour_dist := get_max_contour_dist acc_xy acc_contour_xy cloud max_dist in
  let acc := fst (merge_cloud acc_xy acc_contour_xy cloud max_dist max_contour_dist acc) in
  transformPointCloud acc (inverse tfn0).

(** Lines 111-418: the loop over the poses; [tf0] is [cloud_poses[0].second]. *)
Fixpoint accumulate (tf0 : Transform) (poses : list (string * Transform))
    (acc : PointCloudXYZW) : PointCloudXYZW :=
  match poses with
  | [] => acc
  | (name, tfi) :: rest =>
      match fs_pcd fs (String.append (clouds_dir params) name) with
      | None => accumulate tf0 rest acc
      | Some in_cloud =>
          let cloud := clean in_cloud in
          if length acc =? 0 then accumulate tf0 rest (map to_XYZW cloud)
          else accumulate tf0 rest (merge_pass tf0 tfi cloud acc)
      end
  end.

(** [build3D]. *)
Definition build3D : outcome run :=
  bind (readPoses lexical_cast indeterminate params fs) (fun '(ok, cloud_poses) =>
    if negb ok then Returns {| loaded := []; saved := [] |}
    else
      let acc := match cloud_poses with
                 | (_, tf0) :: _ => accumulate tf0 cloud_poses []
                 | [] => []
                 end in
      let acc_rgb := final_filter voxel_size (map to_RGB acc) in
      Returns {| loaded := map (fun p => String.append (clouds_dir params) (fst p)) cloud_poses;
                 saved := [(String.append (work_dir params) "reconstruction.pcd", acc_rgb)] |}).
End Build3D.

(** ** A linear-scan index

    An implementation of the kd-tree interface by exhaustive search, used
    to run the model on concrete clouds. *)

Fixpoint indexed_from {A : Type} (i : nat) (l : list A) : list (nat * A) :=
  match l with
  | [] => []
  | a :: l' => (i, a) :: indexed_from (S i) l'
  end.

Definition scan_dists (pts : PointCloudXY) (sp : PointXY) : list (nat * float) :=
  indexed_from 0 (map (fun a => sqr_dist a sp) pts).

Fixpoint insert_by_dist (e : nat * float) (l : list (nat * float)) : list (nat * float) :=
  match l with
  | [] => [e]
  | e' :: l' => if F32.ltb (snd e) (snd e') then e :: l else e' :: insert_by_dist e l'
  end.

Definition sort_by_dist (l : list (nat * float)) : list (nat * float) :=
  fold_right insert_by_dist [] l.

Definition scan_radiusSearch (pts : PointCloudXY) (sp : PointXY) (radius : double)
    (max_nn : nat) : list (nat * float) :=
  let hits := List.filter (fun e => F32.ltb (snd e) (sqr_radius radius)) (scan_dists pts sp) in
  let max_nn := if (max_nn =? 0) || (length pts <? max_nn) then length pts else max_nn in
  take max_nn (sort_by_dist hits).

Definition scan_nearestKSearch (pts : PointCloudXY) (sp : PointXY) (k : nat)
    : list (nat * float) :=
  take k (sort_by_dist (scan_dists pts sp)).

Definition LinearScan : KdTreeFLANN :=
  {| radiusSearch := scan_radiusSearch; nearestKSearch := scan_nearestKSearch |}.

(** ** What the callers may rely on from the index

    A radius query only reports points of the indexed cloud, with their
    squared planar distance to the query point, none beyond the squared
    radius. *)
Definition radius_search_sound `{KdTreeFLANN} : Prop :=
  forall (pts : PointCloudXY) (sp : PointXY) (radius : double) (max_nn i : nat) (d : float),
    In (i, d) (radiusSearch pts sp radius max_nn) ->
    exists a, pts !! i = Some a /\ d = sqr_dist a sp /\ F32.ltb (sqr_radius radius) d = false.

(** Every point of [pts] lies farther than [radius] from [sp] in the
    plane. *)
Definition beyond_radius (pts : PointCloudXY) (sp : PointXY) (radius : double) : Prop :=
  forall a, In a pts -> F32.ltb (sqr_radius radius) (sqr_dist a sp) = true.

(** The point a fix-up turn leaves in place of [q]: [q] itself when it is
    flagged or when a lookup finds nothing, else [q] with its colour blended
    against the nearest cloud point and its flag set. *)
Section FixedPoint.
Context `{KdTreeFLANN}.
Variable acc_contour_xy : PointCloudXY.
Variable cloud : PointCloudRGB.
Variable max_contour_dist : float.

Definition reblend (q : PointXYZRGBW) : option PointXYZRGBW :=
  match nearestKSearch (cloud_xy cloud) (xy_of_acc q) 1,
        nearestKSearch acc_contour_xy (xy_of_acc q) 1 with
  | (ci, _) :: _, (_, contour_sq) :: _ =>
      Some {| x := x q; y := y q; z := z q;
              rgb := blend_rgb max_contour_dist contour_sq (rgb q) (c_rgb (cloud !!! ci));
              w := f_one |}
  | _, _ => None
  end.

Definition fixed (q : PointXYZRGBW) : PointXYZRGBW :=
  if F32.eqb (w q) f_one then q else default q (reblend q).
End FixedPoint.

(** ** Sample scenes

    Coordinates in thousandths of a unit, the voxel size of the source
    (0.005) and the distances derived from it. *)
Module Scenes.
Definition milli (n : Z) : float := F32.div (F32.of_int n) (F32.of_int 1000).
Definition max_dist : float := max_dist_of voxel_size.

(** Two accumulator points one millimetre apart and a cloud point on top
    of the first: both are matches within [max_dist]. *)
Definition inner_acc : PointCloudXYZW :=
  [ mkW (milli 0) (milli 0) (F32.of_int 1) 0x102030 f_zero;
    mkW (milli 1) (milli 0) (F32.of_int 3) 0x405060 f_zero ].
Definition inner_pt : PointRGB := mkRGB (milli 0) (milli 0) (F32.of_int 2) 0x30F0FF.
Definition inner_contour : PointCloudXY := [ mkXY (milli 10) (milli 0) ].
Definition inner_max_contour_dist : float :=
  @get_max_contour_dist LinearScan (map xy_of_acc inner_acc) inner_contour [inner_pt] max_dist.
Definition inner_nbrs : list (nat * float) :=
  @radiusSearch LinearScan (map xy_of_acc inner_acc) (xy_of_cloud inner_pt)
    (coverage_radius max_dist) 10.
Definition inner_insert : PointCloudXYZW * list nat * list event :=
  @insert_or_update LinearScan (map xy_of_acc inner_acc) inner_contour
    max_dist inner_max_contour_dist inner_pt inner_acc.
Definition inner_merge : PointCloudXYZW * list event :=
  @merge_point LinearScan (map xy_of_acc inner_acc) inner_contour [inner_pt]
    max_dist inner_max_contour_dist inner_pt inner_acc.

(** One accumulator point and a cloud point five millimetres away:
    a match, but outside [max_dist]. *)
Definition border_acc : PointCloudXYZW :=
  [ mkW (milli 0) (milli 0) (F32.of_int 1) 0x102030 f_zero ].
Definition border_pt : PointRGB := mkRGB (milli 5) (milli 0) (F32.of_int 2) 0x30F0FF.
Definition border_contour : PointCloudXY := [ mkXY (milli (-10)) (milli 0) ].
Definition border_max_contour_dist : float :=
  @get_max_contour_dist LinearScan (map xy_of_acc border_acc) border_contour [border_pt] max_dist.
Definition border_nbrs : list (nat * float) :=
  @radiusSearch LinearScan (map xy_of_acc border_acc) (xy_of_cloud border_pt)
    (coverage_radius max_dist) 10.
Definition border_insert : PointCloudXYZW * list nat * list event :=
  @insert_or_update LinearScan (map xy_of_acc border_acc) border_contour
    max_dist border_max_contour_dist border_pt border_acc.
Definition border_fix : PointCloudXYZW * list event :=
  @fix_colors LinearScan border_contour [border_pt] border_max_contour_dist
    (snd (fst border_insert)) (fst (fst border_insert)).

(** A cloud point twenty millimetres from the accumulator. *)
Definition far_pt : PointRGB := mkRGB (milli 20) (milli 0) (F32.of_int 2) 0x30F0FF.

(** Two white accumulator points, two and three centimetres from the
    only contour point, and a cloud of two white points at the same
    places. *)
Definition white_acc : PointCloudXYZW :=
  [ mkW (milli 30) (milli 0) (F32.of_int 1) 0xFFFFFF f_zero;
    mkW (milli 20) (milli 0) (F32.of_int 1) 0xFFFFFF f_zero ].
Definition white_cloud : PointCloudRGB :=
  [ mkRGB (milli 30) (milli 0) (F32.of_int 1) 0xFFFFFF;
    mkRGB (milli 20) (milli 0) (F32.of_int 1) 0xFFFFFF ].
Definition white_contour : PointCloudXY := [ mkXY (milli 0) (milli 0) ].
Definition white_merge : PointCloudXYZW * list event :=
  let acc_xy := map xy_of_acc white_acc in
  let max_contour_dist :=
    @get_max_contour_dist LinearScan acc_xy white_contour white_cloud max_dist in
  @merge_cloud LinearScan acc_xy white_contour white_cloud max_dist max_contour_dist
    white_acc.

(** A working directory without a poses file, and one with a cloud file
    and a poses file whose only line stops after the cloud name. *)
Definition params : Params := setParameters "/data/run".
Definition no_files : FileSystem :=
  mkFS (fun _ => Some 0) (fun _ => None) (fun _ => None).
Definition truncated_poses : FileSystem :=
  mkFS (fun _ => Some 0)
       (fun path => if String.eqb path (graph_file params)
                    then Some ["0,cloud0"%string] else None)
       (fun path => if String.eqb path (String.append (clouds_dir params) "cloud0.pcd")
                    then Some [inner_pt] else None).
End Scenes.

(** ** The statements of the spec, in its own terms *)

(** Sequential pairwise halving: z_0 = p.z, z_k = (z_{k-1} + d_k.z)/2, with
    [dz] the z of the matches d_1 .. d_n. *)
Fixpoint halving (pz : float) (dz : list float) (k : nat) : float :=
  match k with
  | 0 => pz
  | S k' => F32.div (F32.add (halving pz dz k') (dz !!! k')) f_two
  end.

(** The plain arithmetic mean of p.z and the z of the matches. *)
Definition mean_z (pz : float) (dz : list float) : float :=
  F32.div (fold_left F32.add dz pz) (F32.of_int (Z.of_nat (S (length dz)))).

(** The blend [(1-alpha)*acc_c + alpha*cloud_c] in exact arithmetic for
    [alpha = n/d], cut to its integer part. *)
Definition blend_exact (n d acc_c cloud_c : Z) : Z :=
  (((d - n) * acc_c + n * cloud_c) / d)%Z.

(** The seam blend of the spec: [alpha = (maxContourDistance -
    distanceToContour) / maxContourDistance] and, per channel, [channel =
    (1-alpha)*accColor + alpha*cloudColor], evaluated in [float]; the
    channel keeps the integer part of the result, as a [uint8_t] does. *)
Definition seam_alpha (maxContourDistance distanceToContour : float) : float :=
  F32.div (F32.sub maxContourDistance distanceToContour) maxContourDistance.

Definition seam_channel (alpha : float) (accColor cloudColor : Z) : Z :=
  F32.to_uint8 (F32.add (F32.mul (F32.sub f_one alpha) (F32.of_int accColor))
                        (F32.mul alpha (F32.of_int cloudColor))).

(** The three channels of a packed colour, in arithmetic: red is the byte
    worth 65536, green the byte worth 256, blue the lowest byte. *)
Definition channel_r (c : Z) : Z := ((c / 65536) mod 256)%Z.
Definition channel_g (c : Z) : Z := ((c / 256) mod 256)%Z.
Definition channel_b (c : Z) : Z := (c mod 256)%Z.

Definition seam_colour (maxContourDistance distanceToContour : float)
    (accColor cloudColor : Z) : Z :=
  let alpha := seam_alpha maxContourDistance distanceToContour in
  (65536 * seam_channel alpha (channel_r accColor) (channel_r cloudColor)
   + 256 * seam_channel alpha (channel_g accColor) (channel_g cloudColor)
   + seam_channel alpha (channel_b accColor) (channel_b cloudColor))%Z.

(** At most one of the points of [acc] differs in [acc']. *)
Definition at_most_one_changed (acc acc' : PointCloudXYZW) : Prop :=
  exists k, forall i, i < length acc -> i <> k -> acc' !! i = acc !! i.

(** ** Reading a [float] as a scaled integer

    To bound the rounding of the blend, a finite [float] is read as the
    integer [m * 2^(e + scale)]: with [scale] above 149 every binary32
    value, subnormals included, has an integral reading. *)

Section Magnitude.
Local Open Scope Z_scope.

Definition scale : Z := 300.

Definition mag (v : spec_float) : Z :=
  match v with
  | S754_finite _ m e => Zpos m * 2 ^ (e + scale)
  | _ => 0
  end.

(** A zero or a finite number of sign [s] whose exponent is in range. *)
Definition finite_sign (s : bool) (v : spec_float) : Prop :=
  v = S754_zero s \/ exists m e, v = S754_finite s m e /\ -149 <= e.

(** A zero of either sign or a positive finite number. *)
Definition nonneg_float (v : spec_float) : Prop :=
  (exists s, v = S754_zero s) \/
  exists m e, v = S754_finite false m e /\ -149 <= e.

(** The record [r] holds the mantissa [m] shifted right by [k] places,
    with its round and sticky bits. *)
Definition shifted (m k : Z) (r : shr_record) : Prop :=
  0 <= k /\ 0 <= shr_m r /\
  exists t, 0 <= t < 2 ^ k /\
    2 * m = shr_m r * 2 ^ (k + 1) + (if shr_r r then 2 ^ k else 0) + t /\
    shr_s r = negb (t =? 0).

Definition one32 : spec_float := S754_finite false 8388608 (-23).

(** The integer [a] converts to [float] without rounding. *)
Definition int_float_ok (a : Z) : bool :=
  match binary_normalize 24 128 a 0 false with
  | S754_zero _ => a =? 0
  | S754_finite false m e =>
      (-149 <=? e) && (Zpos m * 2 ^ (e + scale) =? a * 2 ^ scale)
  | _ => false
  end.

(** A blend weight as the spec means it: a binary32 value between 0 and 1. *)
Definition unit_weight (alpha : float) : Prop :=
  valid_binary F32.prec F32.emax alpha = true /\
  SFleb f_zero alpha = true /\ SFleb alpha f_one = true.

End Magnitude.

(** ** Vocabulary for the properties of the pipeline *)

(** The last character of a string, [work_dir[work_dir.length()-1]]. *)
Definition last_char (s : string) : option ascii := String.get (String.length s - 1) s.

(** No comma among the characters of a field. *)
Fixpoint comma_free (s : string) : bool :=
  match s with
  | EmptyString => true
  | String c rest => negb (Ascii.eqb c ","%char) && comma_free rest
  end.

(** The fields of a line, written out with commas between them. *)
Fixpoint join_fields (fields : list string) : string :=
  match fields with
  | [] => EmptyString
  | [f] => f
  | f :: rest => String.append f (String ","%char (join_fields rest))
  end.

(** The number of commas of a line. *)
Fixpoint count_commas (s : string) : nat :=
  match s with
  | EmptyString => 0
  | String c rest => (if Ascii.eqb c ","%char then 1 else 0) + count_commas rest
  end.

(** The lines [readPoses] reads: those of the poses file, none when it
    cannot be opened. *)
Definition poses_lines (params : Params) (fs : FileSystem) : list string :=
  default [] (fs_lines fs (graph_file params)).

(** The cleaned clouds of the poses whose file can be loaded, in order. *)
Definition cleaned_clouds (clean : PointCloudRGB -> PointCloudRGB) (params : Params)
    (fs : FileSystem) (poses : list (string * Transform)) : list PointCloudRGB :=
  omap (fun p => clean <$> fs_pcd fs (String.append (clouds_dir params) (fst p))) poses.

(** Whether the merge loop appends the cloud point: it does when none of
    its matches lies within [max_dist], which includes the point without
    any match. *)
Definition adds_point `{KdTreeFLANN} (acc_xy : PointCloudXY) (max_dist : float)
    (pt : PointRGB) : bool :=
  is_border max_dist
    (map snd (radiusSearch acc_xy (xy_of_cloud pt) (coverage_radius max_dist) 10)).

(** The contour distance of a cloud point as the loop of lines 222-248
    sees it: that of the nearest contour point, for a point that has a
    match. *)
Definition contour_dist `{KdTreeFLANN} (acc_xy acc_contour_xy : PointCloudXY)
    (max_dist : float) (pt : PointRGB) : option float :=
  match radiusSearch acc_xy (xy_of_cloud pt) (coverage_radius max_dist) 1 with
  | [] => None
  | _ :: _ =>
      match nearestKSearch acc_contour_xy (xy_of_cloud pt) 1 with
      | (_, contour_sq) :: _ => Some (F32.sqrt contour_sq)
      | [] => None
      end
  end.

(** ** Stand-ins for the collaborators

    Used to run [readPoses] and [build3D] on the sample scenes. *)

(** [boost::lexical_cast<double>] restricted to unsigned decimal integers:
    anything else is rejected. *)
Fixpoint decimal_value (s : string) (n : Z) : option Z :=
  match s with
  | EmptyString => Some n
  | String c rest =>
      let d := nat_of_ascii c in
      if (48 <=? d) && (d <=? 57) then decimal_value rest (10 * n + Z.of_nat (d - 48))%Z
      else None
  end.

Definition decimal_cast (s : string) : option double :=
  match s with
  | EmptyString => None
  | String _ _ => option_map F64.of_int (decimal_value s 0)
  end.

Module Samples.
(** Filters that keep every point, a rigid transform that is the
    identity, no contour. *)
Definition keep (cloud : PointCloudRGB) : PointCloudRGB := cloud.
Definition relative_pose (tfi tf0 : Transform) : unit := tt.
Definition inverse (t : unit) : unit := t.
Definition transformPointCloud (acc : PointCloudXYZW) (t : unit) : PointCloudXYZW := acc.
Definition contour (voxel : float) (acc : PointCloudXYZW) : PointCloudXY := [].
Definition final_filter (voxel : float) (cloud : PointCloudRGB) : PointCloudRGB := cloud.
Definition unset : double := S754_zero false.
Definition pose0 : Transform := mkTransform unset unset unset unset unset unset unset.
(** Seven different numbers in the uninitialised locals of every line. *)
Definition garbage (k i : nat) : double := F64.of_int (Z.of_nat (7 * k + i)).
Definition garbage_pose (k : nat) : Transform :=
  mkTransform (garbage k 0) (garbage k 1) (garbage k 2) (garbage k 3)
              (garbage k 4) (garbage k 5) (garbage k 6).

(** A poses file that names a cloud whose file is not there. *)
Definition missing_cloud : FileSystem :=
  mkFS (fun _ => Some 0)
       (fun path => if String.eqb path (graph_file Scenes.params)
                    then Some ["0,cloud0"%string] else None)
       (fun _ => None).

(** The files of [Scenes.truncated_poses] behind a lock file that is
    removed after three tests, and behind one that is never removed. *)
Definition released_lock : FileSystem :=
  mkFS (fun path => if String.eqb path "/data/run/.graph.block" then Some 3 else Some 0)
       (fs_lines Scenes.truncated_poses) (fs_pcd Scenes.truncated_poses).
Definition stuck_lock : FileSystem :=
  mkFS (fun path => if String.eqb path "/data/run/.graph.block" then None else Some 0)
       (fs_lines Scenes.truncated_poses) (fs_pcd Scenes.truncated_poses).

(** A poses file that names the same cloud twice. *)
Definition same_cloud_twice : FileSystem :=
  mkFS (fun _ => Some 0)
       (fun path => if String.eqb path (graph_file Scenes.params)
                    then Some ["0,cloud0"%string; "1,cloud0"%string] else None)
       (fs_pcd Scenes.truncated_poses).
End Samples.

(** * Properties *)

(** ** List updates *)

Lemma insert_lookup_total {A : Type} `{Inhabited A} (l : list A) (i : nat) :
  <[ i := l !!! i ]> l = l.
Proof.
  destruct (l !! i) as [a|] eqn:E.
  - rewrite (list_lookup_total_correct _ _ _ E). by apply list_insert_id.
  - apply list_insert_ge. by apply lookup_ge_None.
Qed.

Lemma lookup_map_pair {A B : Type} `{Inhabited A} (l : list (A * B)) (k : nat) (b : B) :
  map snd l !! k = Some b ->
  exists a, l !! k = Some (a, b) /\ map fst l !!! k = a.
Proof.
  change (map snd l) with (snd <$> l). change (map fst l) with (fst <$> l).
  rewrite list_lookup_fmap. destruct (l !! k) as [[a b']|] eqn:E; simpl; intros [= <-].
  exists a. split; [reflexivity|]. apply list_lookup_total_correct.
  by rewrite list_lookup_fmap, E.
Qed.

(** ** The fix-up loop, point by point *)

Section FixUp.
Context `{KdTreeFLANN}.
Variable acc_contour_xy : PointCloudXY.
Variable cloud : PointCloudRGB.
Variable max_contour_dist : float.

Local Abbreviation fixed' := (fixed acc_contour_xy cloud max_contour_dist).
Local Abbreviation reblend' := (reblend acc_contour_xy cloud max_contour_dist).
Local Abbreviation fix_color' := (fix_color acc_contour_xy cloud max_contour_dist).
Local Abbreviation fix_colors' := (fix_colors acc_contour_xy cloud max_contour_dist).

Lemma reblend_coords q q' :
  reblend' q = Some q' -> x q' = x q /\ y q' = y q /\ z q' = z q /\ w q' = f_one.
Proof.
  unfold reblend. intros E.
  destruct (nearestKSearch _ _ _) as [|[ci ?] ?]; [discriminate|].
  destruct (nearestKSearch _ _ _) as [|[? csq] ?]; [discriminate|].
  injection E as <-. auto.
Qed.

Lemma fixed_coords q : x (fixed' q) = x q /\ y (fixed' q) = y q /\ z (fixed' q) = z q.
Proof.
  unfold fixed. destruct (F32.eqb _ _); [auto|].
  destruct (reblend' q) as [q'|] eqn:E; simpl; [|auto].
  apply reblend_coords in E. tauto.
Qed.

Lemma fixed_flagged q : w q = f_one -> fixed' q = q.
Proof. unfold fixed. intros ->. reflexivity. Qed.

Lemma fixed_idem q : fixed' (fixed' q) = fixed' q.
Proof.
  destruct (F32.eqb (w q) f_one) eqn:Ew.
  - unfold fixed. by rewrite !Ew.
  - destruct (reblend' q) as [q'|] eqn:E.
    + assert (fixed' q = q') as -> by (unfold fixed; by rewrite Ew, E).
      apply fixed_flagged. by apply reblend_coords in E as (_ & _ & _ & Hw).
    + assert (fixed' q = q) as Hq by (unfold fixed; by rewrite Ew, E).
      by rewrite !Hq.
Qed.

Lemma fix_color_acc i acc : fst (fix_color' i acc) = <[ i := fixed' (acc !!! i) ]> acc.
Proof.
  unfold fix_color, fixed, reblend.
  destruct (F32.eqb _ _); simpl.
  { symmetry. apply insert_lookup_total. }
  destruct (nearestKSearch (cloud_xy cloud) _ _) as [|[ci ?] ?]; simpl.
  { symmetry. apply insert_lookup_total. }
  destruct (nearestKSearch acc_contour_xy _ _) as [|[? csq] ?]; simpl.
  { symmetry. apply insert_lookup_total. }
  reflexivity.
Qed.

Lemma fix_colors_cons i rest acc :
  fst (fix_colors' (i :: rest) acc) = fst (fix_colors' rest (fst (fix_color' i acc))).
Proof.
  simpl. destruct (fix_color' i acc) as [acc1 e1]. simpl.
  destruct (fix_colors' rest acc1). reflexivity.
Qed.

Lemma fix_colors_length idxs acc : length (fst (fix_colors' idxs acc)) = length acc.
Proof.
  revert acc. induction idxs as [|i rest IH]; intros acc; [reflexivity|].
  rewrite fix_colors_cons, IH, fix_color_acc. apply length_insert.
Qed.

Lemma fix_colors_lookup idxs acc j :
  fst (fix_colors' idxs acc) !! j =
  if bool_decide (j ∈ idxs) then fixed' <$> acc !! j else acc !! j.
Proof.
  revert acc. induction idxs as [|i rest IH]; intros acc.
  { reflexivity. }
  rewrite fix_colors_cons, IH, fix_color_acc.
  destruct (decide (j = i)) as [->|Hne].
  - rewrite (bool_decide_eq_true_2 (i ∈ i :: rest)) by apply list_elem_of_here.
    destruct (acc !! i) as [q|] eqn:E.
    + rewrite list_lookup_insert_eq by (by eapply lookup_lt_Some).
      rewrite (list_lookup_total_correct _ _ _ E). simpl.
      case_bool_decide; simpl; [by rewrite fixed_idem | reflexivity].
    + rewrite list_insert_ge by (by apply lookup_ge_None).
      rewrite E. by case_bool_decide.
  - rewrite list_lookup_insert_ne by congruence.
    assert (bool_decide (j ∈ i :: rest) = bool_decide (j ∈ rest)) as ->; [|reflexivity].
    apply bool_decide_ext. rewrite elem_of_cons. intuition congruence.
Qed.

Lemma map_fixed_coords idxs acc :
  let acc' := fst (fix_colors' idxs acc) in
  map x acc' = map x acc /\ map y acc' = map y acc /\ map z acc' = map z acc.
Proof.
  intros acc'.
  assert (Hpt : forall i, exists q q', (acc !! i = None /\ acc' !! i = None) \/
            (acc !! i = Some q /\ acc' !! i = Some q' /\
             x q' = x q /\ y q' = y q /\ z q' = z q)).
  { intros i. unfold acc'. rewrite fix_colors_lookup.
    destruct (acc !! i) as [q|] eqn:E.
    - pose proof (fixed_coords q) as Hc.
      case_bool_decide; simpl; eauto 10.
    - exists inhabitant, inhabitant. left. by case_bool_decide. }
  repeat split; apply list_eq; intros i;
    change (map ?f ?l) with (f <$> l); rewrite !list_lookup_fmap;
    destruct (Hpt i) as (q & q' & [[-> ->] | (-> & -> & Hx & Hy & Hz)]); simpl; congruence.
Qed.
End FixUp.

(** ** The order on [float] *)

Lemma ltb_irrefl (a : float) : F32.ltb a a = false.
Proof.
  unfold F32.ltb, SFltb.
  destruct a as [s|s| |s m e]; simpl; try reflexivity.
  - by destruct s.
  - change (PosDef.Pos.compare_cont Eq m m) with (Pos.compare m m).
    destruct s; rewrite Z.compare_refl, Pos.compare_refl; reflexivity.
Qed.

Lemma ltb_trans (a b c : float) :
  F32.ltb a b = true -> F32.ltb b c = true -> F32.ltb a c = true.
Proof.
  unfold F32.ltb, SFltb.
  destruct a as [sa|sa| |sa ma ea], b as [sb|sb| |sb mb eb], c as [sc|sc| |sc mc ec];
    simpl; try discriminate;
    try (destruct sa; discriminate); try (destruct sb; discriminate);
    try (destruct sc; discriminate);
    try (destruct sa, sb; discriminate); try (destruct sb, sc; discriminate);
    try (destruct sa, sc; simpl; (discriminate || reflexivity)).
  all: try (destruct sa, sb, sc; simpl; (discriminate || reflexivity || idtac)).
  all: repeat match goal with
       | |- context [PosDef.Pos.compare_cont Eq ?p ?q] =>
           change (PosDef.Pos.compare_cont Eq p q) with (Pos.compare p q)
       end.
  all: destruct (Z.compare_spec ea eb), (Z.compare_spec eb ec), (Z.compare_spec ea ec);
       try discriminate; try reflexivity; try lia.
  all: subst.
  all: destruct (Pos.compare_spec ma mb), (Pos.compare_spec mb mc), (Pos.compare_spec ma mc);
       simpl; try discriminate; try reflexivity; try lia.
Qed.

Lemma ltb_asym (a b : float) : F32.ltb a b = true -> F32.ltb b a = false.
Proof.
  intros Hab. destruct (F32.ltb b a) eqn:Hba; [|reflexivity].
  pose proof (ltb_trans _ _ _ Hab Hba) as Haa. by rewrite ltb_irrefl in Haa.
Qed.

(** ** [min_element] finds a least element *)

Lemma min_element_from_least (l pre : list float) (best : nat) (best_v : float) :
  pre !! best = Some best_v ->
  (forall v, v ∈ pre -> F32.ltb v best_v = false) ->
  exists rv, (pre ++ l) !! min_element_from best best_v (length pre) l = Some rv /\
             forall v, v ∈ pre ++ l -> F32.ltb v rv = false.
Proof.
  revert pre best best_v. induction l as [|v l IH]; intros pre best best_v Hbest Hleast.
  { exists best_v. rewrite app_nil_r. auto. }
  assert (Hlen : S (length pre) = length (pre ++ [v])).
  { rewrite length_app. simpl. lia. }
  simpl. rewrite Hlen, (cons_middle v pre l), app_assoc.
  destruct (F32.ltb v best_v) eqn:Hv.
  - apply IH.
    + apply list_lookup_middle. reflexivity.
    + intros u [Hu | ->%list_elem_of_singleton]%elem_of_app.
      * destruct (F32.ltb u v) eqn:Huv; [|reflexivity].
        rewrite <- (Hleast u Hu). symmetry. by eapply ltb_trans.
      * apply ltb_irrefl.
  - apply IH.
    + by apply lookup_app_l_Some.
    + intros u [Hu | ->%list_elem_of_singleton]%elem_of_app; auto.
Qed.

Lemma min_element_least (l : list float) :
  l <> [] ->
  exists rv, l !! min_element l = Some rv /\ forall v, v ∈ l -> F32.ltb v rv = false.
Proof.
  destruct l as [|v l]; [congruence|]. intros _.
  apply (min_element_from_least l [v] 0 v); [reflexivity|].
  intros u ->%list_elem_of_singleton. apply ltb_irrefl.
Qed.

(** ** The linear scan honours the contract of the index *)

Lemma indexed_from_In {A : Type} (l : list A) (k i : nat) (a : A) :
  In (i, a) (indexed_from k l) -> k <= i /\ l !! (i - k) = Some a.
Proof.
  revert k. induction l as [|b l IH]; intros k; simpl; [tauto|].
  intros [E | Hin].
  - injection E as -> ->. rewrite Nat.sub_diag. split; [lia | reflexivity].
  - apply IH in Hin as [Hle Hl]. split; [lia|].
    replace (i - k) with (S (i - S k)) by lia. exact Hl.
Qed.

Lemma insert_by_dist_In (e e' : nat * float) (l : list (nat * float)) :
  In e' (insert_by_dist e l) -> e' = e \/ In e' l.
Proof.
  induction l as [|e0 l IH]; simpl.
  - intros [<- | []]. by left.
  - destruct (F32.ltb (snd e) (snd e0)); simpl.
    + intros [<- | Hin]; [by left | by right].
    + intros [<- | Hin]; [right; by left |].
      destruct (IH Hin) as [-> | Hin']; [by left | right; by right].
Qed.

Lemma sort_by_dist_In (e : nat * float) (l : list (nat * float)) :
  In e (sort_by_dist l) -> In e l.
Proof.
  induction l as [|e0 l IH]; simpl; [tauto|].
  intros [-> | Hin]%insert_by_dist_In; [by left | right; by apply IH].
Qed.

Lemma LinearScan_sound : @radius_search_sound LinearScan.
Proof.
  intros pts sp radius max_nn i d Hin. simpl in Hin. unfold scan_radiusSearch in Hin.
  apply list_elem_of_In, subseteq_take, list_elem_of_In in Hin.
  apply sort_by_dist_In, filter_In in Hin as [Hin Hlt]. simpl in Hlt.
  apply indexed_from_In in Hin as [_ Hl]. rewrite Nat.sub_0_r in Hl.
  change (map (fun a => sqr_dist a sp) pts) with ((fun a => sqr_dist a sp) <$> pts) in Hl.
  rewrite list_lookup_fmap in Hl.
  destruct (pts !! i) as [a|]; [|discriminate]. injection Hl as <-.
  exists a. split; [reflexivity|]. split; [reflexivity|]. by apply ltb_asym.
Qed.

(** ** Folding over the matches *)

Lemma halving_app (pz : float) (dz more : list float) (k : nat) :
  k <= length dz -> halving pz (dz ++ more) k = halving pz dz k.
Proof.
  induction k as [|k IH]; intros Hk; [reflexivity|].
  simpl. rewrite IH by lia.
  rewrite !list_lookup_total_alt, lookup_app_l by lia. reflexivity.
Qed.

Lemma fold_halving (pz : float) (dz : list float) :
  fold_left (fun zk d => F32.div (F32.add zk d) f_two) dz pz = halving pz dz (length dz).
Proof.
  induction dz as [|d dz IH] using rev_ind; [reflexivity|].
  rewrite fold_left_app, length_app, Nat.add_1_r. simpl.
  rewrite IH, halving_app by lia.
  rewrite list_lookup_total_middle by reflexivity. reflexivity.
Qed.

Lemma filter_z_halving (acc : PointCloudXYZW) (idx : list nat) (pz : float) :
  filter_z acc idx pz = halving pz (map (fun i => z (acc !!! i)) idx) (length idx).
Proof.
  unfold filter_z. rewrite <- (length_map (fun i => z (acc !!! i)) idx), <- fold_halving.
  revert pz. induction idx as [|i idx IH]; intros pz; [reflexivity|]. simpl. apply IH.
Qed.

(** ** Colours as bytes *)

Section ColourArithmetic.
Local Open Scope Z_scope.

Lemma byte_bits_high (v n : Z) : 0 <= v < 256 -> 8 <= n -> Z.testbit v n = false.
Proof.
  intros Hv Hn. rewrite <- (Z.mod_small v (2 ^ 8)) by (change (2 ^ 8) with 256; lia).
  apply Z.mod_pow2_bits_high. lia.
Qed.

Lemma mask_bits (n : Z) : 0 <= n -> Z.testbit 255 n = (n <? 8).
Proof.
  intros Hn. change 255 with (Z.ones 8).
  destruct (Z.ltb_spec n 8).
  - apply Z.ones_spec_low. lia.
  - apply Z.ones_spec_high. lia.
Qed.

Lemma to_uint8_range (v : float) : 0 <= F32.to_uint8 v < 256.
Proof.
  unfold F32.to_uint8. destruct v; try lia.
  destruct (_ && _); [|lia]. apply Z.mod_pos_bound. lia.
Qed.

Lemma blend_channel_range (alpha : float) (a c : Z) : 0 <= blend_channel alpha a c < 256.
Proof. apply to_uint8_range. Qed.

Lemma disjoint_lor (a b : Z) : Z.land a b = 0 -> Z.lor a b = a + b.
Proof. intros Hd. pose proof (Z.add_lor_land a b) as Hs. lia. Qed.

(** Packing three bytes adds them up, each at its place. *)
Lemma pack_rgb_sum (r g b : Z) :
  0 <= r < 256 -> 0 <= g < 256 -> 0 <= b < 256 ->
  pack_rgb r g b = 65536 * r + 256 * g + b.
Proof.
  intros Hr Hg Hb. unfold pack_rgb.
  assert (H1 : Z.land (Z.shiftl r 16) (Z.shiftl g 8) = 0).
  { apply Z.bits_inj'. intros n Hn.
    rewrite Z.land_spec, !Z.shiftl_spec, Z.bits_0 by lia.
    destruct (Z.ltb_spec n 16).
    - by rewrite (Z.testbit_neg_r r (n - 16)) by lia.
    - rewrite (byte_bits_high g (n - 8)) by lia. apply andb_false_r. }
  rewrite (disjoint_lor _ _ H1).
  assert (H2 : Z.land (Z.shiftl r 16 + Z.shiftl g 8) b = 0).
  { rewrite <- (disjoint_lor _ _ H1). apply Z.bits_inj'. intros n Hn.
    rewrite Z.land_spec, Z.lor_spec, !Z.shiftl_spec, Z.bits_0 by lia.
    destruct (Z.ltb_spec n 8).
    - by rewrite (Z.testbit_neg_r r (n - 16)), (Z.testbit_neg_r g (n - 8)) by lia.
    - rewrite (byte_bits_high b n) by lia. apply andb_false_r. }
  rewrite (disjoint_lor _ _ H2), !Z.shiftl_mul_pow2 by lia.
  change (2 ^ 16) with 65536. change (2 ^ 8) with 256. lia.
Qed.

(** Shifting and masking a colour reads off its bytes. *)
Lemma channels_of_colour (c : Z) :
  red c = channel_r c /\ green c = channel_g c /\ blue c = channel_b c.
Proof.
  unfold red, green, blue, channel_r, channel_g, channel_b.
  change 255 with (Z.ones 8).
  rewrite !Z.land_ones, !Z.shiftr_div_pow2 by lia. auto.
Qed.

(** The colour the code packs is the seam blend of the spec. *)
Lemma blend_rgb_seam (max_contour_dist contour_sq : float) (acc_rgb cloud_rgb : Z) :
  blend_rgb max_contour_dist contour_sq acc_rgb cloud_rgb =
  seam_colour max_contour_dist (F32.sqrt contour_sq) acc_rgb cloud_rgb.
Proof.
  unfold blend_rgb, seam_colour.
  destruct (channels_of_colour acc_rgb) as (-> & -> & ->).
  destruct (channels_of_colour cloud_rgb) as (-> & -> & ->).
  rewrite pack_rgb_sum by apply blend_channel_range. reflexivity.
Qed.
End ColourArithmetic.

(** ** The body of the merge loop *)

Section MergePointFacts.
Context `{KdTreeFLANN}.
Variable acc_xy : PointCloudXY.
Variable acc_contour_xy : PointCloudXY.
Variable cloud : PointCloudRGB.
Variable max_dist : float.
Variable max_contour_dist : float.

Local Abbreviation radius := (coverage_radius max_dist).
Local Abbreviation insert_or_update' :=
  (insert_or_update acc_xy acc_contour_xy max_dist max_contour_dist).
Local Abbreviation merge_overlap' := (merge_overlap acc_contour_xy max_dist max_contour_dist).
Local Abbreviation merge_point' :=
  (merge_point acc_xy acc_contour_xy cloud max_dist max_contour_dist).
Local Abbreviation merge_points' :=
  (merge_points acc_xy acc_contour_xy cloud max_dist max_contour_dist).
Local Abbreviation fix_colors' := (fix_colors acc_contour_xy cloud max_contour_dist).
Local Abbreviation fixed' := (fixed acc_contour_xy cloud max_contour_dist).
Local Abbreviation blend_point' := (blend_point acc_contour_xy max_contour_dist).

(** The two shapes of [insert_or_update]. *)
Lemma insert_or_update_none pt acc :
  radiusSearch acc_xy (xy_of_cloud pt) radius 10 = [] ->
  insert_or_update' pt acc = (acc ++ [extract_point pt], [], []).
Proof. unfold insert_or_update. by intros ->. Qed.

Lemma insert_or_update_some pt acc nbrs :
  radiusSearch acc_xy (xy_of_cloud pt) radius 10 = nbrs -> nbrs <> [] ->
  insert_or_update' pt acc =
    (fst (merge_overlap' pt nbrs acc), map fst nbrs, snd (merge_overlap' pt nbrs acc)).
Proof.
  unfold insert_or_update. intros -> Hne.
  destruct nbrs as [|e l]; [congruence|].
  by destruct (merge_overlap' pt (e :: l) acc).
Qed.

Lemma merge_overlap_border pt nbrs acc :
  is_border max_dist (map snd nbrs) = true ->
  let primary := map fst nbrs !!! min_element (map snd nbrs) in
  fst (merge_overlap' pt nbrs acc) =
    acc ++ [ {| x := c_x pt; y := c_y pt;
                z := filter_z acc (map fst nbrs) (c_z pt);
                rgb := fst (blend_point' (xy_of_cloud pt) (acc !!! primary) (extract_point pt));
                w := f_one |} ].
Proof.
  intros Hb. unfold merge_overlap. simpl.
  destruct (blend_point' _ _ _) as [prgb evs]. by rewrite Hb.
Qed.

Lemma merge_overlap_inner pt nbrs acc :
  is_border max_dist (map snd nbrs) = false ->
  let primary := map fst nbrs !!! min_element (map snd nbrs) in
  fst (merge_overlap' pt nbrs acc) =
    <[ primary := {| x := x (acc !!! primary); y := y (acc !!! primary);
                     z := filter_z acc (map fst nbrs) (c_z pt);
                     rgb := fst (blend_point' (xy_of_cloud pt) (acc !!! primary) (extract_point pt));
                     w := f_one |} ]> acc.
Proof.
  intros Hb. unfold merge_overlap. simpl.
  destruct (blend_point' _ _ _) as [prgb evs]. by rewrite Hb.
Qed.

Lemma merge_point_acc pt acc :
  fst (merge_point' pt acc) =
  fst (fix_colors' (snd (fst (insert_or_update' pt acc))) (fst (fst (insert_or_update' pt acc)))).
Proof.
  unfold merge_point. destruct (insert_or_update' pt acc) as [[acc1 idx] e1]. simpl.
  by destruct (fix_colors' idx acc1).
Qed.

Lemma is_border_spec dists :
  is_border max_dist dists = true <->
  forall d, In d dists -> F32.ltb d (F32.mul max_dist max_dist) = false.
Proof.
  unfold is_border. rewrite forallb_forall.
  split; intros Hall d Hd; specialize (Hall d Hd).
  - by apply negb_true_iff.
  - by rewrite Hall.
Qed.

Lemma merge_point_unmatched pt acc :
  radiusSearch acc_xy (xy_of_cloud pt) radius 10 = [] ->
  merge_point' pt acc = (acc ++ [extract_point pt], []).
Proof. intros E. unfold merge_point. by rewrite (insert_or_update_none _ _ E). Qed.

(** A cloud none of whose points has a match is appended point by point. *)
Lemma merge_points_unmatched (pts : list PointRGB) (acc : PointCloudXYZW) :
  (forall pt, In pt pts -> radiusSearch acc_xy (xy_of_cloud pt) radius 10 = []) ->
  merge_points' pts acc = (acc ++ map extract_point pts, []).
Proof.
  revert acc. induction pts as [|pt pts IH]; intros acc Hall.
  { simpl. by rewrite app_nil_r. }
  simpl. rewrite merge_point_unmatched by (apply Hall; by left).
  rewrite IH by (intros; apply Hall; by right).
  by rewrite <- app_assoc.
Qed.

(** Without matches the contour distance stays where it started. *)
Lemma max_contour_dist_unmatched (pts : list PointRGB) (m : float) :
  (forall pt, In pt pts -> radiusSearch acc_xy (xy_of_cloud pt) radius 1 = []) ->
  fold_left (max_contour_step acc_xy acc_contour_xy max_dist) pts m = m.
Proof.
  revert m. induction pts as [|pt pts IH]; intros m Hall; [reflexivity|].
  simpl. unfold max_contour_step at 2. rewrite (Hall pt) by (by left).
  apply IH. intros; apply Hall; by right.
Qed.

(** C2, as amended.  The insert-or-update step of one incoming point
    either appends one point and leaves the existing ones alone, or
    replaces a single existing point, the primary match, by one with the
    same x and y, keeping the size; the fix-up that follows leaves every
    point outside the matches as it is and changes no coordinate, but it
    may recolour and flag several of the matches. *)
Theorem insert_or_update_then_fixup (pt : PointRGB) (acc : PointCloudXYZW) :
  let nbrs := radiusSearch acc_xy (xy_of_cloud pt) radius 10 in
  let primary := map fst nbrs !!! min_element (map snd nbrs) in
  let acc1 := fst (fst (insert_or_update' pt acc)) in
  let acc2 := fst (merge_point' pt acc) in
  ((exists q, acc1 = acc ++ [q]) \/
   (exists q, acc1 = <[ primary := q ]> acc /\ length acc1 = length acc /\
              x q = x (acc !!! primary) /\ y q = y (acc !!! primary))) /\
  (forall j, j ∉ map fst nbrs -> acc2 !! j = acc1 !! j) /\
  length acc2 = length acc1 /\
  map x acc2 = map x acc1 /\ map y acc2 = map y acc1 /\ map z acc2 = map z acc1.
Proof.
  intros nbrs primary acc1 acc2.
  assert (Hidx : snd (fst (insert_or_update' pt acc)) = map fst nbrs).
  { destruct nbrs as [|e l] eqn:E.
    - by rewrite (insert_or_update_none _ _ E).
    - by rewrite (insert_or_update_some _ _ _ E). }
  split; [|split; [|split]].
  - destruct nbrs as [|e l] eqn:E.
    + left. exists (extract_point pt). unfold acc1.
      by rewrite (insert_or_update_none _ _ E).
    + unfold acc1.
      rewrite (insert_or_update_some _ _ (e :: l) E) by discriminate. simpl fst.
      destruct (is_border max_dist (map snd (e :: l))) eqn:Hb.
      * left. eexists. by apply merge_overlap_border.
      * right. eexists. split; [by apply merge_overlap_inner|].
        rewrite merge_overlap_inner by done. rewrite length_insert. auto.
  - intros j Hj. unfold acc2. rewrite merge_point_acc, fix_colors_lookup, Hidx.
    by rewrite bool_decide_eq_false_2.
  - unfold acc2. rewrite merge_point_acc. apply fix_colors_length.
  - unfold acc2. rewrite merge_point_acc. apply map_fixed_coords.
Qed.

(** C3, as amended.  After the fix-up, an accumulator point is the
    re-blended and flagged version of what insert-or-update left there
    exactly when it is among the matches of the incoming point, its flag is
    not 1 and both the cloud and the contour lookup found a neighbour
    ([fixed]); every other point is what it was.  When the incoming point
    is not a border point, the primary match was flagged by the overwrite
    and the fix-up leaves it alone. *)
Theorem fixup_reblends_unflagged_matches (pt : PointRGB) (acc : PointCloudXYZW)
    (nbrs : list (nat * float)) :
  radiusSearch acc_xy (xy_of_cloud pt) radius 10 = nbrs ->
  let acc1 := fst (fst (insert_or_update' pt acc)) in
  let acc2 := fst (merge_point' pt acc) in
  let primary := map fst nbrs !!! min_element (map snd nbrs) in
  (forall j, acc2 !! j =
             if bool_decide (j ∈ map fst nbrs) then fixed' <$> acc1 !! j else acc1 !! j) /\
  (nbrs <> [] -> is_border max_dist (map snd nbrs) = false ->
   acc2 !! primary = acc1 !! primary).
Proof.
  intros E acc1 acc2 primary.
  assert (Hidx : snd (fst (insert_or_update' pt acc)) = map fst nbrs).
  { destruct nbrs as [|e l].
    - by rewrite (insert_or_update_none _ _ E).
    - by rewrite (insert_or_update_some _ _ _ E). }
  assert (Hall : forall j, acc2 !! j =
             if bool_decide (j ∈ map fst nbrs) then fixed' <$> acc1 !! j else acc1 !! j).
  { intros j. unfold acc2. by rewrite merge_point_acc, fix_colors_lookup, Hidx. }
  split; [exact Hall|]. intros Hne Hb. rewrite Hall.
  case_bool_decide; [|reflexivity].
  unfold acc1. rewrite (insert_or_update_some _ _ _ E Hne). simpl fst.
  rewrite merge_overlap_inner by done. fold primary.
  destruct (decide (primary < length acc)) as [Hlt|Hge].
  - rewrite list_lookup_insert_eq by done. simpl. by rewrite fixed_flagged.
  - rewrite list_insert_ge by lia.
    rewrite (proj2 (lookup_ge_None acc primary)) by lia. reflexivity.
Qed.

(** C4.  For an incoming point with at least one match: the border test
    succeeds exactly when no match has a squared distance below
    [max_dist*max_dist]; a border point is appended with its own x and y,
    the averaged z, the blended colour and flag 1, the existing points
    staying as they are; any other point rewrites z, colour and flag of the
    primary match only, and the size does not change, not even after the
    fix-up.  The averaged z is the last term of the halving sequence over
    the matches; the blended colour is the seam blend of the primary
    match's colour and the point's colour at the distance to the nearest
    contour point, and the point's own colour when there is no contour
    point.  The primary match is one that no match is closer than. *)
Theorem border_test_and_update (pt : PointRGB) (acc : PointCloudXYZW)
    (nbrs : list (nat * float)) :
  radiusSearch acc_xy (xy_of_cloud pt) radius 10 = nbrs -> nbrs <> [] ->
  let neighbor_squared_dist := map snd nbrs in
  let primary := map fst nbrs !!! min_element neighbor_squared_dist in
  let pz := halving (c_z pt) (map (fun e => z (acc !!! fst e)) nbrs) (length nbrs) in
  let prgb := match nearestKSearch acc_contour_xy (xy_of_cloud pt) 1 with
              | (_, contour_sq) :: _ =>
                  seam_colour max_contour_dist (F32.sqrt contour_sq)
                              (rgb (acc !!! primary)) (c_rgb pt)
              | [] => c_rgb pt
              end in
  let acc1 := fst (fst (insert_or_update' pt acc)) in
  (is_border max_dist neighbor_squared_dist = true <->
   forall d, In d neighbor_squared_dist -> F32.ltb d (F32.mul max_dist max_dist) = false) /\
  (is_border max_dist neighbor_squared_dist = true ->
   acc1 = acc ++ [ {| x := c_x pt; y := c_y pt; z := pz; rgb := prgb; w := f_one |} ]) /\
  (is_border max_dist neighbor_squared_dist = false ->
   acc1 = <[ primary := {| x := x (acc !!! primary); y := y (acc !!! primary);
                           z := pz; rgb := prgb; w := f_one |} ]> acc /\
   (forall j, j <> primary -> acc1 !! j = acc !! j) /\
   length acc1 = length acc /\
   length (fst (merge_point' pt acc)) = length acc) /\
  (exists d_min, nbrs !! min_element neighbor_squared_dist = Some (primary, d_min) /\
                 forall d, In d neighbor_squared_dist -> F32.ltb d d_min = false).
Proof.
  intros E Hne dists primary pz prgb acc1.
  assert (Hacc1 : acc1 = fst (merge_overlap' pt nbrs acc)).
  { unfold acc1. by rewrite (insert_or_update_some _ _ _ E Hne). }
  assert (Hz : filter_z acc (map fst nbrs) (c_z pt) = pz).
  { unfold pz. by rewrite filter_z_halving, map_map, length_map. }
  assert (Hc : fst (blend_point' (xy_of_cloud pt) (acc !!! primary) (extract_point pt)) = prgb).
  { unfold prgb, blend_point.
    destruct (nearestKSearch acc_contour_xy (xy_of_cloud pt) 1) as [|[ci contour_sq] rest];
      [reflexivity|].
    simpl. apply blend_rgb_seam. }
  split; [apply is_border_spec|]. split; [|split].
  - intros Hb. rewrite Hacc1, <- Hz, <- Hc. by apply merge_overlap_border.
  - intros Hb.
    assert (Hins : acc1 = <[ primary := {| x := x (acc !!! primary); y := y (acc !!! primary);
                           z := pz; rgb := prgb; w := f_one |} ]> acc).
    { rewrite Hacc1, <- Hz, <- Hc. by apply merge_overlap_inner. }
    split; [exact Hins|]. split; [|split].
    + intros j Hj. rewrite Hins. by apply list_lookup_insert_ne.
    + rewrite Hins. apply length_insert.
    + rewrite merge_point_acc, fix_colors_length. fold acc1. rewrite Hins. apply length_insert.
  - destruct (min_element_least dists) as (d_min & Hd & Hleast).
    { unfold dists. by destruct nbrs. }
    exists d_min. split.
    + destruct (lookup_map_pair _ _ _ Hd) as (i & Hi & Hp). fold dists primary in Hp.
      rewrite Hi. by rewrite <- Hp.
    + intros d Hd'. apply Hleast. by apply list_elem_of_In.
Qed.

(** C5.  For an incoming point with matches d_1 .. d_n, in the order the
    index returned them, the z written by the merge (on the appended point,
    or on the primary match) is z_n of the sequence z_0 = p.z,
    z_k = (z_{k-1} + d_k.z)/2; and that is not the arithmetic mean: from
    p.z = 0 and neighbours at z = 0 and z = 4 it gives 2. *)
Theorem merged_z_is_sequential_halving (pt : PointRGB) (acc : PointCloudXYZW)
    (nbrs : list (nat * float)) :
  radiusSearch acc_xy (xy_of_cloud pt) radius 10 = nbrs -> nbrs <> [] ->
  let dz := map (fun e => z (acc !!! fst e)) nbrs in
  let z_n := halving (c_z pt) dz (length nbrs) in
  let primary := map fst nbrs !!! min_element (map snd nbrs) in
  let acc1 := fst (fst (insert_or_update' pt acc)) in
  (is_border max_dist (map snd nbrs) = true -> z <$> last acc1 = Some z_n) /\
  (is_border max_dist (map snd nbrs) = false -> primary < length acc ->
   z <$> acc1 !! primary = Some z_n) /\
  halving (F32.of_int 0) [F32.of_int 0; F32.of_int 4] 2 = F32.of_int 2 /\
  halving (F32.of_int 0) [F32.of_int 0; F32.of_int 4] 2
    <> mean_z (F32.of_int 0) [F32.of_int 0; F32.of_int 4].
Proof.
  intros E Hne dz z_n primary acc1.
  assert (Hz : filter_z acc (map fst nbrs) (c_z pt) = z_n).
  { rewrite filter_z_halving, map_map, length_map. reflexivity. }
  assert (Hacc1 : acc1 = fst (merge_overlap' pt nbrs acc)).
  { unfold acc1. by rewrite (insert_or_update_some _ _ _ E Hne). }
  split; [|split; [|split]].
  - intros Hb. rewrite Hacc1, merge_overlap_border, last_snoc by done. simpl. by rewrite Hz.
  - intros Hb Hlt. rewrite Hacc1, merge_overlap_inner by done. fold primary.
    rewrite list_lookup_insert_eq by done. simpl. by rewrite Hz.
  - reflexivity.
  - vm_compute. discriminate.
Qed.

(** C6.  An incoming point without a match is appended as it is, with x,
    y, z and colour of the cloud point and flag 0; the accumulator grows by
    exactly one point and nothing else happens. *)
Theorem unmatched_point_appended (pt : PointRGB) (acc : PointCloudXYZW) :
  radiusSearch acc_xy (xy_of_cloud pt) radius 10 = [] ->
  let q := {| x := c_x pt; y := c_y pt; z := c_z pt; rgb := c_rgb pt; w := f_zero |} in
  merge_point' pt acc = (acc ++ [q], []) /\
  length (fst (merge_point' pt acc)) = S (length acc) /\
  last (fst (merge_point' pt acc)) = Some q /\
  (forall i, i < length acc -> fst (merge_point' pt acc) !! i = acc !! i).
Proof.
  intros E q. rewrite (merge_point_unmatched _ _ E). simpl.
  rewrite length_app, last_snoc. simpl.
  repeat split; [lia|]. intros i Hi. by apply lookup_app_l.
Qed.
End MergePointFacts.

(** ** Whole clouds *)

Section MergeCloudFacts.
Context `{KdTreeFLANN}.
Variable acc_contour_xy : PointCloudXY.
Variable cloud : PointCloudRGB.
Variable max_dist : float.

Local Abbreviation radius := (coverage_radius max_dist).

(** C7.  If every point of the incoming cloud lies farther than the
    coverage radius from every accumulator point, the merge appends the
    whole cloud: the size grows by the size of the cloud, every existing
    point is found unchanged at its index, and the border test is never
    run. *)
Theorem disjoint_cloud_appended (max_contour_dist : float) (acc : PointCloudXYZW) :
  radius_search_sound ->
  (forall pt, In pt cloud -> beyond_radius (map xy_of_acc acc) (xy_of_cloud pt) radius) ->
  let r := merge_cloud (map xy_of_acc acc) acc_contour_xy cloud max_dist max_contour_dist acc in
  length (fst r) = length acc + length cloud /\
  fst r = acc ++ map extract_point cloud /\
  (forall i q, acc !! i = Some q -> fst r !! i = Some q) /\
  (forall b, ~ In (EvBorderTest b) (snd r)).
Proof.
  intros Hsound Hfar r.
  assert (Hr : r = (acc ++ map extract_point cloud, [])).
  { apply merge_points_unmatched. intros pt Hpt.
    destruct (radiusSearch _ _ _ _) as [|[i d] l] eqn:E; [reflexivity|].
    destruct (Hsound (map xy_of_acc acc) (xy_of_cloud pt) radius 10 i d) as (a & Ha & -> & Hd).
    { rewrite E. by left. }
    rewrite (Hfar pt Hpt a) in Hd; [discriminate|].
    apply list_elem_of_In. by eapply list_elem_of_lookup_2. }
  rewrite Hr. simpl. rewrite length_app, length_map.
  repeat split; [|tauto]. intros i q Hq. by apply lookup_app_l_Some.
Qed.

(** C8.  When no point of the incoming cloud has an accumulator neighbour
    within the coverage radius, [max_contour_dist] stays 0, and the merge
    run with it appends the cloud points unchanged: the blend weight is
    never evaluated (no division by zero), no warning is raised, and every
    colour, old or new, is the one that came in. *)
Theorem disjoint_cloud_never_blends (acc_xy : PointCloudXY) (acc : PointCloudXYZW) :
  (forall pt max_nn, In pt cloud ->
     radiusSearch acc_xy (xy_of_cloud pt) radius max_nn = []) ->
  let mcd := get_max_contour_dist acc_xy acc_contour_xy cloud max_dist in
  let r := merge_cloud acc_xy acc_contour_xy cloud max_dist mcd acc in
  mcd = f_zero /\
  r = (acc ++ map extract_point cloud, []) /\
  ~ In EvAlpha (snd r) /\
  map rgb (fst r) = map rgb acc ++ map c_rgb cloud.
Proof.
  intros Hall mcd r.
  assert (Hr : r = (acc ++ map extract_point cloud, [])).
  { apply merge_points_unmatched. intros pt Hpt. by apply Hall. }
  split; [|split; [exact Hr|]].
  - apply max_contour_dist_unmatched. intros pt Hpt. by apply Hall.
  - rewrite Hr. simpl. split; [tauto|].
    rewrite map_app, map_map. reflexivity.
Qed.

(** C10.  The fix-up loop changes no coordinate: whatever the indices it
    visits, the accumulator keeps its size and the x, y and z of every
    point; a point it changed differs in colour and flag only. *)
Theorem fixup_keeps_coordinates (max_contour_dist : float) (acc_overlap_idx : list nat)
    (acc : PointCloudXYZW) :
  let acc' := fst (fix_colors acc_contour_xy cloud max_contour_dist acc_overlap_idx acc) in
  length acc' = length acc /\
  map x acc' = map x acc /\ map y acc' = map y acc /\ map z acc' = map z acc /\
  (forall i q q', acc !! i = Some q -> acc' !! i = Some q' ->
     q' = q \/ q' = {| x := x q; y := y q; z := z q; rgb := rgb q'; w := f_one |}).
Proof.
  intros acc'. split; [apply fix_colors_length|].
  destruct (map_fixed_coords acc_contour_xy cloud max_contour_dist acc_overlap_idx acc)
    as (Hx & Hy & Hz).
  repeat split; try assumption.
  intros i q q' Hq. unfold acc'. rewrite fix_colors_lookup, Hq.
  case_bool_decide; simpl; intros [= <-]; [|by left].
  unfold fixed. destruct (F32.eqb (w q) f_one); [by left|].
  destruct (reblend _ _ _ q) as [q'|] eqn:E; simpl; [|by left].
  right. unfold reblend in E.
  destruct (nearestKSearch _ _ _) as [|[ci ?] ?]; [discriminate|].
  destruct (nearestKSearch _ _ _) as [|[? csq] ?]; [discriminate|].
  by injection E as <-.
Qed.
End MergeCloudFacts.

(** ** The two sample overlaps *)

(** C2 as stated fails on the inner scene: the one incoming point changes
    both accumulator points, the primary match by the overwrite and the
    other match by the fix-up. *)
Lemma one_point_changes_two :
  length (fst Scenes.inner_merge) = length Scenes.inner_acc /\
  fst Scenes.inner_merge !! 0 <> Scenes.inner_acc !! 0 /\
  fst Scenes.inner_merge !! 1 <> Scenes.inner_acc !! 1 /\
  ~ at_most_one_changed Scenes.inner_acc (fst Scenes.inner_merge).
Proof.
  assert (H0 : fst Scenes.inner_merge !! 0 <> Scenes.inner_acc !! 0)
    by (vm_compute; discriminate).
  assert (H1 : fst Scenes.inner_merge !! 1 <> Scenes.inner_acc !! 1)
    by (vm_compute; discriminate).
  repeat split; try assumption.
  intros [k Hk]. destruct k as [|k].
  - apply H1, Hk; [simpl; lia | discriminate].
  - apply H0, Hk; [simpl; lia | discriminate].
Qed.

(** C3 as stated fails on the border scene: the only match is the primary
    one, the appended point does not overwrite it, and the fix-up re-blends
    and flags it. *)
Lemma fixup_reblends_primary_of_border_point :
  map fst Scenes.border_nbrs !!! min_element (map snd Scenes.border_nbrs) = 0 /\
  is_border Scenes.max_dist (map snd Scenes.border_nbrs) = true /\
  fst (fst Scenes.border_insert) !! 0 = Scenes.border_acc !! 0 /\
  rgb <$> fst Scenes.border_fix !! 0 = Some 0x1A6575%Z /\
  w <$> fst Scenes.border_fix !! 0 = Some f_one /\
  fst Scenes.border_fix !! 0 <> fst (fst Scenes.border_insert) !! 0.
Proof. vm_compute. repeat split; discriminate. Qed.

Lemma fixup_reblends_unflagged_matches_witness :
  map fst Scenes.inner_nbrs = [0; 1] /\
  is_border Scenes.max_dist (map snd Scenes.inner_nbrs) = false /\
  fst Scenes.inner_merge !! 0 = fst (fst Scenes.inner_insert) !! 0 /\
  fst Scenes.inner_merge !! 1 =
    @fixed LinearScan Scenes.inner_contour [Scenes.inner_pt] Scenes.inner_max_contour_dist
      <$> fst (fst Scenes.inner_insert) !! 1.
Proof.
  destruct (@fixup_reblends_unflagged_matches LinearScan
              (map xy_of_acc Scenes.inner_acc) Scenes.inner_contour [Scenes.inner_pt]
              Scenes.max_dist Scenes.inner_max_contour_dist
              Scenes.inner_pt Scenes.inner_acc Scenes.inner_nbrs eq_refl) as [Hall Hprimary].
  split; [vm_compute; reflexivity|]. split; [vm_compute; reflexivity|]. split.
  - apply Hprimary; [vm_compute; discriminate | vm_compute; reflexivity].
  - apply (Hall 1).
Defined.

Lemma border_test_and_update_witness :
  map fst Scenes.border_nbrs = [0] /\
  is_border Scenes.max_dist (map snd Scenes.border_nbrs) = true /\
  length (fst (fst Scenes.border_insert)) = 2 /\
  fst (fst Scenes.border_insert) !! 0 = Scenes.border_acc !! 0.
Proof.
  destruct (@border_test_and_update LinearScan
              (map xy_of_acc Scenes.border_acc) Scenes.border_contour [Scenes.border_pt]
              Scenes.max_dist Scenes.border_max_contour_dist
              Scenes.border_pt Scenes.border_acc Scenes.border_nbrs eq_refl)
    as (_ & Hborder & _ & _); [vm_compute; discriminate|].
  assert (Hb : is_border Scenes.max_dist (map snd Scenes.border_nbrs) = true)
    by (vm_compute; reflexivity).
  specialize (Hborder Hb).
  split; [vm_compute; reflexivity|]. split; [exact Hb|].
  unfold Scenes.border_insert. rewrite Hborder. split; reflexivity.
Defined.

Lemma merged_z_is_sequential_halving_witness :
  map (fun e => z (Scenes.inner_acc !!! fst e)) Scenes.inner_nbrs = [F32.of_int 1; F32.of_int 3] /\
  is_border Scenes.max_dist (map snd Scenes.inner_nbrs) = false /\
  z <$> fst (fst Scenes.inner_insert) !! 0 =
    Some (F32.div (F32.add (F32.div (F32.add (F32.of_int 2) (F32.of_int 1)) f_two)
                           (F32.of_int 3)) f_two).
Proof.
  destruct (@merged_z_is_sequential_halving LinearScan
              (map xy_of_acc Scenes.inner_acc) Scenes.inner_contour
              Scenes.max_dist Scenes.inner_max_contour_dist
              Scenes.inner_pt Scenes.inner_acc Scenes.inner_nbrs eq_refl)
    as (_ & Hinner & _); [vm_compute; discriminate|].
  assert (Hb : is_border Scenes.max_dist (map snd Scenes.inner_nbrs) = false)
    by (vm_compute; reflexivity).
  split; [vm_compute; reflexivity|]. split; [exact Hb|].
  apply (Hinner Hb). vm_compute. lia.
Defined.

Lemma unmatched_point_appended_witness :
  @radiusSearch LinearScan (map xy_of_acc Scenes.inner_acc) (xy_of_cloud Scenes.far_pt)
    (coverage_radius Scenes.max_dist) 10 = [] /\
  fst (@merge_point LinearScan (map xy_of_acc Scenes.inner_acc) Scenes.inner_contour
         [Scenes.far_pt] Scenes.max_dist f_zero Scenes.far_pt Scenes.inner_acc)
    = Scenes.inner_acc ++
      [ mkW (Scenes.milli 20) (Scenes.milli 0) (F32.of_int 2) 0x30F0FF f_zero ].
Proof.
  assert (E : @radiusSearch LinearScan (map xy_of_acc Scenes.inner_acc)
                (xy_of_cloud Scenes.far_pt) (coverage_radius Scenes.max_dist) 10 = [])
    by (vm_compute; reflexivity).
  split; [exact E|].
  destruct (@unmatched_point_appended LinearScan
              (map xy_of_acc Scenes.inner_acc) Scenes.inner_contour [Scenes.far_pt]
              Scenes.max_dist f_zero Scenes.far_pt Scenes.inner_acc E) as (Hm & _).
  rewrite Hm. reflexivity.
Defined.

Lemma disjoint_cloud_appended_witness :
  length (fst (@merge_cloud LinearScan (map xy_of_acc Scenes.inner_acc) Scenes.inner_contour
                 [Scenes.far_pt] Scenes.max_dist f_zero Scenes.inner_acc)) = 2 + 1.
Proof.
  apply (@disjoint_cloud_appended LinearScan Scenes.inner_contour [Scenes.far_pt]
           Scenes.max_dist f_zero Scenes.inner_acc LinearScan_sound).
  intros pt [<- | []] a [<- | [<- | []]]; vm_compute; reflexivity.
Defined.

Lemma disjoint_cloud_never_blends_witness :
  @get_max_contour_dist LinearScan (map xy_of_acc Scenes.inner_acc) Scenes.inner_contour
    [Scenes.far_pt] Scenes.max_dist = f_zero.
Proof.
  apply (@disjoint_cloud_never_blends LinearScan Scenes.inner_contour [Scenes.far_pt]
           Scenes.max_dist (map xy_of_acc Scenes.inner_acc) Scenes.inner_acc).
  intros pt max_nn [<- | []].
  change (@radiusSearch LinearScan) with scan_radiusSearch. unfold scan_radiusSearch.
  assert (Hhits : List.filter
            (fun e => F32.ltb (snd e) (sqr_radius (coverage_radius Scenes.max_dist)))
            (scan_dists (map xy_of_acc Scenes.inner_acc) (xy_of_cloud Scenes.far_pt)) = [])
    by (vm_compute; reflexivity).
  rewrite Hhits. apply take_nil.
Defined.

(** ** Blending *)

(** With a weight n/d between 0 and 1 the exact blend, cut to an integer,
    stays between the two channels. *)
Lemma blend_exact_between (n d a c : Z) :
  (0 < d)%Z -> (0 <= n <= d)%Z ->
  (Z.min a c <= blend_exact n d a c <= Z.max a c)%Z.
Proof.
  intros Hd Hn. unfold blend_exact. split.
  - apply Z.div_le_lower_bound; [lia|]. nia.
  - apply Z.div_le_upper_bound; [lia|]. nia.
Qed.

(** C9, as stated, fails.  The blend as the code evaluates it, at
    [max_contour_dist] 3 and a squared contour distance 4: the weight is the
    [float] next to 1/3, it lies in [0,1], and blending channel 255 with
    channel 255 stores 254, below both channels, so white blended with white
    is no longer white; in exact arithmetic the same weight gives 255.  The
    same happens in a merge: the white cloud merged into the white
    accumulator leaves the colour 0xFEFEFE on the second point. *)
Theorem blend_of_equal_channels_undershoots :
  let alpha := blend_alpha (F32.of_int 3) (F32.of_int 4) in
  alpha = S754_finite false 11184811 (-25) /\
  unit_weight alpha /\
  F32.ltb alpha f_zero = false /\ F32.ltb f_one alpha = false /\
  blend_channel alpha 255 255 = 254%Z /\
  blend_rgb (F32.of_int 3) (F32.of_int 4) 0xFFFFFF 0xFFFFFF = 0xFEFEFE%Z /\
  blend_exact 11184811 (2 ^ 25) 255 255 = 255%Z /\
  map rgb (fst Scenes.white_merge) = [0xFFFFFF%Z; 0xFEFEFE%Z].
Proof. vm_compute. repeat split; reflexivity. Qed.

(** ** The rounding of the blend *)

Section BlendBound.
Local Open Scope Z_scope.

(** The number of binary digits of a mantissa. *)
Lemma digits2_size (p : positive) : digits2_pos p = Pos.size p.
Proof. induction p; simpl; congruence. Qed.

Lemma digits_bounds (p : positive) :
  2 ^ (Zpos (digits2_pos p) - 1) <= Zpos p < 2 ^ Zpos (digits2_pos p).
Proof.
  rewrite digits2_size. split.
  - pose proof (Pos.size_le p) as H.
    assert (H' : (Zpos (2 ^ Pos.size p) <= Zpos p~0)) by exact H.
    rewrite Pos2Z.inj_pow in H'.
    replace (Zpos (Pos.size p)) with ((Zpos (Pos.size p) - 1) + 1) in H' by lia.
    rewrite Z.pow_add_r, Z.pow_1_r in H' by lia. lia.
  - pose proof (Pos.size_gt p) as H.
    assert (H' : (Zpos p < Zpos (2 ^ Pos.size p))) by exact H.
    by rewrite Pos2Z.inj_pow in H'.
Qed.

(** One more shift keeps the record in step with the mantissa. *)

Lemma shr_1_shifted (m k : Z) (r : shr_record) :
  shifted m k r -> shifted m (k + 1) (shr_1 r).
Proof.
  intros (Hk & Hq & t & Ht & Hm & Hs).
  destruct r as [q rb sb]. simpl in *.
  assert (P1 : 2 ^ (k + 1) = 2 * 2 ^ k) by (rewrite Z.pow_add_r by lia; lia).
  assert (P2 : 2 ^ (k + 1 + 1) = 4 * 2 ^ k) by (rewrite !Z.pow_add_r by lia; lia).
  assert (Hpos : 0 < 2 ^ k) by (apply Z.pow_pos_nonneg; lia).
  destruct q as [|[q|q|]|q]; unfold shifted; simpl; try lia.
  all: (split; [lia|]; split; [lia|]).
  all: exists ((if rb then 2 ^ k else 0) + t).
  all: rewrite ?P1, ?P2 in *.
  all: destruct rb; simpl; subst sb; repeat split; try lia.
  all: try (destruct (t =? 0) eqn:E; simpl;
            [apply Z.eqb_eq in E | apply Z.eqb_neq in E];
            symmetry; try (apply Z.eqb_neq; lia); try (apply Z.eqb_eq; lia)).
Qed.


Lemma iter_shr_shifted (p : positive) (m k : Z) (r : shr_record) :
  shifted m k r -> shifted m (k + Zpos p) (SpecFloat.iter_pos shr_1 p r).
Proof.
  revert k r. induction p as [p IH|p IH|]; intros k r Hr; simpl.
  - replace (k + Zpos p~1) with (k + 1 + Zpos p + Zpos p) by lia.
    by apply IH, IH, shr_1_shifted.
  - replace (k + Zpos p~0) with (k + Zpos p + Zpos p) by lia.
    by apply IH, IH.
  - by apply shr_1_shifted.
Qed.

Lemma shifted_init (m : Z) : 0 <= m -> shifted m 0 (shr_record_of_loc m loc_Exact).
Proof.
  intros Hm. unfold shifted. simpl. repeat split; try lia.
  exists 0. simpl. repeat split; lia.
Qed.

(** Rounding the shifted record to nearest even. *)
Lemma round_shifted (m k : Z) (r : shr_record) :
  shifted m k r ->
  let q' := round_nearest_even (shr_m r) (loc_of_shr_record r) in
  shr_m r <= q' <= shr_m r + 1 /\ Z.abs (2 * m - q' * 2 ^ (k + 1)) <= 2 ^ k.
Proof.
  intros (Hk & Hq & t & Ht & Hm & Hs).
  destruct r as [q rb sb]. simpl in *.
  assert (P1 : 2 ^ (k + 1) = 2 * 2 ^ k) by (rewrite Z.pow_add_r by lia; lia).
  assert (Hpos : 0 < 2 ^ k) by (apply Z.pow_pos_nonneg; lia).
  rewrite P1 in *.
  assert (Ht0 : sb = false -> t = 0).
  { intros ->. destruct (t =? 0) eqn:E; [by apply Z.eqb_eq in E | discriminate]. }
  assert (Ht1 : sb = true -> t <> 0).
  { intros ->. destruct (t =? 0) eqn:E; [discriminate | by apply Z.eqb_neq in E]. }
  destruct rb, sb; simpl.
  - specialize (Ht1 eq_refl). nia.
  - specialize (Ht0 eq_refl). destruct (Z.even q); nia.
  - specialize (Ht1 eq_refl). nia.
  - specialize (Ht0 eq_refl). nia.
Qed.


Lemma shr_spec (m e n : Z) :
  0 <= m ->
  snd (shr (shr_record_of_loc m loc_Exact) e n) = e + Z.max n 0 /\
  shifted m (Z.max n 0) (fst (shr (shr_record_of_loc m loc_Exact) e n)).
Proof.
  intros Hm. destruct n as [|p|p]; simpl.
  - split; [lia | by apply shifted_init].
  - split; [lia|]. replace (Z.max (Zpos p) 0) with (0 + Zpos p) by lia.
    by apply iter_shr_shifted, shifted_init.
  - split; [lia | by apply shifted_init].
Qed.

Lemma shr_nonpos (r : shr_record) (e n : Z) : n <= 0 -> shr r e n = (r, e).
Proof. destruct n; simpl; [reflexivity | lia | reflexivity]. Qed.

Lemma fexp32 (e : Z) : fexp 24 128 e = Z.max (e - 24) (-149).
Proof. reflexivity. Qed.

Lemma round_aux_core (s : bool) (mx : positive) (ex : Z) :
  let E := Z.max (Zpos (digits2_pos mx) + ex - 24) (-149) in
  let e0 := Z.max E ex in
  e0 <= 103 ->
  exists q', 0 <= q' /\
    Z.abs (2 * Zpos mx - q' * 2 ^ (e0 - ex + 1)) <= 2 ^ (e0 - ex) /\
    ((q' = 0 /\ binary_round_aux 24 128 s (Zpos mx) ex loc_Exact = S754_zero s) \/
     (exists m e, binary_round_aux 24 128 s (Zpos mx) ex loc_Exact = S754_finite s m e /\
                  e0 <= e /\ Zpos m * 2 ^ (e - e0) = q')).
Proof.
  intros E e0 He0.
  pose proof (digits_bounds mx) as Hd.
  set (d := Zpos (digits2_pos mx)) in *.
  unfold binary_round_aux, shr_fexp. rewrite fexp32.
  change (Zdigits2 (Zpos mx)) with d. fold E.
  destruct (shr_spec (Zpos mx) ex (E - ex)) as [He1 Hinv]; [lia|].
  destruct (shr (shr_record_of_loc (Zpos mx) loc_Exact) ex (E - ex)) as [r1 e1].
  simpl in He1, Hinv.
  assert (Hk : Z.max (E - ex) 0 = e0 - ex) by lia.
  assert (He1' : e1 = e0) by lia. clear He1. subst e1. rewrite Hk in Hinv.
  destruct (round_shifted _ _ _ Hinv) as [Hq' Herr].
  destruct Hinv as (Hk0 & Hq & t & Ht & Hm & Hs).
  set (q' := round_nearest_even (shr_m r1) (loc_of_shr_record r1)) in *.
  set (k := e0 - ex) in *.
  assert (Hpk : 0 < 2 ^ k) by (apply Z.pow_pos_nonneg; lia).
  assert (P1 : 2 ^ (k + 1) = 2 * 2 ^ k) by (rewrite Z.pow_add_r by lia; lia).
  assert (Hq24 : shr_m r1 < 2 ^ 24).
  { assert (Hdk : d <= 24 + k) by lia.
    assert (H2d : 2 ^ d <= 2 ^ (24 + k)) by (apply Z.pow_le_mono_r; lia).
    rewrite Z.pow_add_r in H2d by lia.
    assert (shr_m r1 * 2 ^ k < 2 ^ 24 * 2 ^ k); [|nia].
    rewrite P1 in Hm. destruct (shr_r r1); nia. }
  exists q'. split; [lia|]. split; [exact Herr|].
  rewrite fexp32.
  destruct (Z.eq_dec q' 0) as [Hz|Hnz].
  - left. split; [exact Hz|]. rewrite Hz. simpl Zdigits2.
    rewrite shr_nonpos by lia. reflexivity.
  - right. destruct q' as [|qp|qp] eqn:Eq; [congruence| |lia].
    pose proof (digits_bounds qp) as Hd'.
    simpl Zdigits2. set (d' := Zpos (digits2_pos qp)) in *.
    destruct (Z.eq_dec (Zpos qp) (2 ^ 24)) as [Htop|Hlow].
    + assert (Hqp : qp = 16777216%positive) by (apply Pos2Z.inj; exact Htop).
      subst qp. change d' with 25.
      replace (Z.max (25 + e0 - 24) (-149) - e0) with 1 by lia.
      simpl. replace (e0 + 1 <=? 128 - 24) with true by (symmetry; apply Z.leb_le; lia).
      exists 8388608%positive, (e0 + 1). split; [reflexivity|]. split; [lia|].
      replace (e0 + 1 - e0) with 1 by lia. reflexivity.
    + assert (Hd24 : d' <= 24).
      { destruct (Z_le_gt_dec d' 24) as [|Hgt]; [assumption|].
        assert (2 ^ 24 <= 2 ^ (d' - 1)) by (apply Z.pow_le_mono_r; lia). lia. }
      rewrite shr_nonpos by lia. simpl.
      replace (e0 <=? 128 - 24) with true by (symmetry; apply Z.leb_le; lia).
      exists qp, e0. split; [reflexivity|]. split; [lia|].
      rewrite Z.sub_diag. simpl. lia.
Qed.



Lemma scale_val : scale = 300.
Proof. reflexivity. Qed.

Lemma pow2_pos (n : Z) : 0 <= n -> 0 < 2 ^ n.
Proof. intros. apply Z.pow_pos_nonneg; lia. Qed.

Lemma pow2_split (a b : Z) : 0 <= a -> 0 <= b -> 2 ^ (a + b) = 2 ^ a * 2 ^ b.
Proof. intros. apply Z.pow_add_r; lia. Qed.

Lemma round_aux_error (s : bool) (mx : positive) (ex p : Z) :
  -298 <= ex -> -125 <= p <= 100 ->
  Zpos mx * 2 ^ (ex + scale) < 2 ^ (p + scale) ->
  finite_sign s (binary_round_aux 24 128 s (Zpos mx) ex loc_Exact) /\
  Z.abs (mag (binary_round_aux 24 128 s (Zpos mx) ex loc_Exact) - Zpos mx * 2 ^ (ex + scale))
    <= 2 ^ (p - 25 + scale).
Proof.
  intros Hex Hp Hval. pose proof scale_val as HK.
  pose proof (digits_bounds mx) as Hd.
  set (d := Zpos (digits2_pos mx)) in *.
  assert (Hd1 : 1 <= d) by (unfold d; lia).
  assert (Hdp : d + ex <= p).
  { assert (2 ^ (d - 1 + (ex + scale)) < 2 ^ (p + scale)) as Hlt.
    { rewrite pow2_split by lia.
      pose proof (pow2_pos (ex + scale)). nia. }
    apply Z.pow_lt_mono_r_iff in Hlt; lia. }
  assert (Hexp : ex < p).
  { assert (2 ^ (ex + scale) < 2 ^ (p + scale)) as Hlt.
    { pose proof (pow2_pos (ex + scale)). nia. }
    apply Z.pow_lt_mono_r_iff in Hlt; lia. }
  destruct (round_aux_core s mx ex) as (q' & Hq0 & Herr & Hres).
  { fold d. lia. }
  fold d in Herr, Hres.
  set (E := Z.max (d + ex - 24) (-149)) in *.
  set (e0 := Z.max E ex) in *.
  set (r := binary_round_aux 24 128 s (Zpos mx) ex loc_Exact) in *.
  set (k := e0 - ex) in *.
  assert (Hk : 0 <= k) by lia.
  assert (Hmag : finite_sign s r /\ mag r = q' * 2 ^ (e0 + scale)).
  { destruct Hres as [[Hz ->] | (m & e & -> & He & Hm)].
    - split; [by left|]. simpl. lia.
    - split; [right; exists m, e; split; [reflexivity | lia]|].
      simpl. rewrite <- Hm.
      replace (e + scale) with ((e - e0) + (e0 + scale)) by lia.
      rewrite pow2_split by lia. lia. }
  destruct Hmag as [Hok Hmag]. split; [exact Hok|]. rewrite Hmag.
  set (X := 2 ^ (ex + scale - 1)).
  assert (HX : 0 < X) by (apply pow2_pos; lia).
  assert (H1 : 2 ^ (ex + scale) = 2 * X).
  { unfold X. replace (ex + scale) with (1 + (ex + scale - 1)) at 1 by lia.
    rewrite pow2_split by lia. reflexivity. }
  assert (H2 : 2 ^ (e0 + scale) = 2 ^ (k + 1) * X).
  { unfold X. replace (e0 + scale) with ((k + 1) + (ex + scale - 1)) by lia.
    rewrite pow2_split by lia. reflexivity. }
  rewrite H1, H2.
  assert (Hpk : 0 < 2 ^ k) by (apply pow2_pos; lia).
  destruct (Z.eq_dec k 0) as [Hk0 | Hk1].
  - rewrite Hk0 in *. simpl in Herr |- *.
    assert (q' = Zpos mx) by lia. subst q'.
    replace (Zpos mx * (2 * X) - Zpos mx * (2 * X)) with 0 by lia.
    simpl. pose proof (pow2_pos (p - 25 + scale)). lia.
  - assert (HE : e0 = E) by lia.
    assert (Hbound : 2 ^ k * X <= 2 ^ (p - 25 + scale)).
    { unfold X. rewrite <- pow2_split by lia. apply Z.pow_le_mono_r; lia. }
    replace (q' * (2 ^ (k + 1) * X) - Zpos mx * (2 * X))
      with (- (2 * Zpos mx - q' * 2 ^ (k + 1)) * X) by lia.
    rewrite Z.abs_mul, Z.abs_opp, (Z.abs_eq X) by lia.
    nia.
Qed.



Lemma finite_sign_nonneg (v : spec_float) : finite_sign false v -> nonneg_float v.
Proof. intros [-> | H]; [left; by exists false | by right]. Qed.

Lemma mag_nonneg (v : spec_float) : 0 <= mag v.
Proof.
  destruct v as [| | |s m e]; simpl; lia.
Qed.

Lemma iter_xO (d mx : positive) : Zpos (Pos.iter xO mx d) = Zpos mx * 2 ^ Zpos d.
Proof.
  induction d as [|d IH] using Pos.peano_ind.
  - simpl. lia.
  - rewrite Pos.iter_succ, Pos2Z.inj_xO, IH, Pos2Z.inj_succ, Z.pow_succ_r by lia. lia.
Qed.

Lemma shl_align_spec (mx : positive) (ex ex' : Z) :
  - scale <= ex -> - scale <= ex' ->
  snd (shl_align mx ex ex') = Z.min ex ex' /\
  Zpos (fst (shl_align mx ex ex')) * 2 ^ (snd (shl_align mx ex ex') + scale) = Zpos mx * 2 ^ (ex + scale).
Proof.
  intros Hex Hex'. unfold shl_align.
  destruct (ex' - ex) as [|d|d] eqn:Ed; simpl.
  - split; [lia | reflexivity].
  - split; [lia | reflexivity].
  - split; [lia|]. rewrite iter_xO.
    replace (ex + scale) with (Zpos d + (ex' + scale)) by lia.
    rewrite (pow2_split (Zpos d) (ex' + scale)) by lia. ring.
Qed.

Lemma binary_round_error (s : bool) (mx : positive) (ex p : Z) :
  -149 <= ex -> -125 <= p <= 100 ->
  Zpos mx * 2 ^ (ex + scale) < 2 ^ (p + scale) ->
  finite_sign s (binary_round 24 128 s mx ex) /\
  Z.abs (mag (binary_round 24 128 s mx ex) - Zpos mx * 2 ^ (ex + scale)) <= 2 ^ (p - 25 + scale).
Proof.
  intros Hex Hp Hval. pose proof scale_val as HK. unfold binary_round. rewrite fexp32.
  set (e' := Z.max (Zpos (digits2_pos mx) + ex - 24) (-149)).
  destruct (shl_align_spec mx ex e') as [He Hv]; [lia | lia |].
  destruct (shl_align mx ex e') as [mz ez]. simpl in He, Hv.
  rewrite <- Hv. apply round_aux_error; [lia | lia | by rewrite Hv].
Qed.

Lemma binary_normalize_error (m e p : Z) (szero : bool) :
  0 <= m -> -149 <= e -> -125 <= p <= 100 ->
  m * 2 ^ (e + scale) < 2 ^ (p + scale) ->
  nonneg_float (binary_normalize 24 128 m e szero) /\
  Z.abs (mag (binary_normalize 24 128 m e szero) - m * 2 ^ (e + scale)) <= 2 ^ (p - 25 + scale).
Proof.
  intros Hm He Hp Hval. pose proof scale_val as HK.
  destruct m as [|m|m]; [|clear Hm|lia]; simpl binary_normalize.
  - split; [left; by eexists|]. simpl.
    pose proof (pow2_pos (p - 25 + scale)). lia.
  - destruct (binary_round_error false m e p He Hp Hval) as [Hok Herr].
    split; [by apply finite_sign_nonneg | exact Herr].
Qed.

(** Addition of two non-negative floats. *)
Lemma add_error (v1 v2 : spec_float) (p : Z) :
  nonneg_float v1 -> nonneg_float v2 -> -125 <= p <= 100 ->
  mag v1 + mag v2 < 2 ^ (p + scale) ->
  nonneg_float (SFadd 24 128 v1 v2) /\
  Z.abs (mag (SFadd 24 128 v1 v2) - (mag v1 + mag v2)) <= 2 ^ (p - 25 + scale).
Proof.
  intros H1 H2 Hp Hval. pose proof scale_val as HK.
  pose proof (pow2_pos (p - 25 + scale)) as Hpos.
  destruct H1 as [[s1 ->] | (m1 & e1 & -> & He1)], H2 as [[s2 ->] | (m2 & e2 & -> & He2)].
  - simpl SFadd. split.
    + left. destruct s1, s2; by eexists.
    + destruct s1, s2; simpl; lia.
  - simpl SFadd. split; [right; by exists m2, e2|].
    simpl mag. replace (_ - _) with 0 by lia. simpl. lia.
  - simpl SFadd. split; [right; by exists m1, e1|].
    simpl mag. replace (_ - _) with 0 by lia. simpl. lia.
  - unfold SFadd. unfold cond_Zopp.
    set (ez := Z.min e1 e2).
    destruct (shl_align_spec m1 e1 ez) as [Hs1 Hv1]; [lia | lia |].
    destruct (shl_align_spec m2 e2 ez) as [Hs2 Hv2]; [lia | lia |].
    destruct (shl_align m1 e1 ez) as [a1 z1], (shl_align m2 e2 ez) as [a2 z2].
    simpl in Hs1, Hv1, Hs2, Hv2 |- *.
    assert (z1 = ez) as -> by lia. assert (z2 = ez) as -> by lia.
    simpl mag in Hval |- *.
    assert (Hsum : (Zpos a1 + Zpos a2) * 2 ^ (ez + scale)
                   = Zpos m1 * 2 ^ (e1 + scale) + Zpos m2 * 2 ^ (e2 + scale))
      by (rewrite Z.mul_add_distr_r, Hv1, Hv2; reflexivity).
    rewrite <- Hsum in *.
    change (Zpos a1 + Zpos a2) with (Zpos (a1 + a2)) in *.
    destruct (binary_round_error false (a1 + a2) ez p) as [Hok Herr]; [lia | lia | lia |].
    split; [by apply finite_sign_nonneg | exact Herr].
Qed.



Lemma mag_one : mag one32 = 2 ^ scale.
Proof. reflexivity. Qed.

(** [1 - v] for a non-negative [v] that is at most 1. *)
Lemma sub_one_error (v : spec_float) :
  nonneg_float v -> mag v <= 2 ^ scale ->
  nonneg_float (SFsub 24 128 one32 v) /\
  Z.abs (mag (SFsub 24 128 one32 v) - (2 ^ scale - mag v)) <= 2 ^ (1 - 25 + scale).
Proof.
  intros Hv Hle. pose proof scale_val as HK.
  pose proof (pow2_pos (1 - 25 + scale)) as Hpos.
  destruct Hv as [[s ->] | (m & e & -> & He)].
  - simpl SFsub. split; [right; exists 8388608%positive, (-23); split; [reflexivity | lia]|].
    rewrite mag_one. simpl mag. replace (_ - _) with 0 by lia. simpl. lia.
  - unfold SFsub, one32, cond_Zopp.
    set (ez := Z.min (-23) e).
    destruct (shl_align_spec 8388608 (-23) ez) as [Hs1 Hv1]; [lia | lia |].
    destruct (shl_align_spec m e ez) as [Hs2 Hv2]; [lia | lia |].
    destruct (shl_align 8388608 (-23) ez) as [a1 z1], (shl_align m e ez) as [a2 z2].
    simpl fst in *. simpl snd in *.
    assert (z1 = ez) as -> by lia. assert (z2 = ez) as -> by lia.
    change (Zpos 8388608 * 2 ^ (-23 + scale)) with (2 ^ scale) in Hv1.
    simpl mag in Hle |- *.
    assert (Hz : 0 < 2 ^ (ez + scale)) by (apply pow2_pos; lia).
    assert (HD : (Zpos a1 - Zpos a2) * 2 ^ (ez + scale) = 2 ^ scale - Zpos m * 2 ^ (e + scale)).
    { rewrite Z.mul_sub_distr_r, Hv1, Hv2. reflexivity. }
    rewrite <- HD.
    apply binary_normalize_error; [nia | lia | lia |].
    rewrite HD. assert (2 ^ (1 + scale) = 2 * 2 ^ scale) as ->.
    { rewrite pow2_split by lia. reflexivity. }
    pose proof (pow2_pos scale). lia.
Qed.

(** The product of a non-negative float and the float of an integer. *)
Lemma mul_int_error (v w : spec_float) (c p : Z) :
  nonneg_float v -> nonneg_float w -> mag w = c * 2 ^ scale -> -125 <= p <= 100 ->
  mag v * c < 2 ^ (p + scale) ->
  nonneg_float (SFmul 24 128 v w) /\
  Z.abs (mag (SFmul 24 128 v w) - mag v * c) <= 2 ^ (p - 25 + scale).
Proof.
  intros Hv Hw Hc Hp Hval. pose proof scale_val as HK.
  pose proof (pow2_pos (p - 25 + scale)) as Hpos.
  assert (HK0 : 0 < 2 ^ scale) by (apply pow2_pos; lia).
  destruct Hv as [[s1 ->] | (m1 & e1 & -> & He1)], Hw as [[s2 ->] | (m2 & e2 & -> & He2)].
  - simpl. split; [left; by eexists | lia].
  - simpl SFmul. split; [left; by eexists|]. simpl. lia.
  - simpl SFmul. split; [left; by eexists|].
    simpl mag in *. assert (c = 0) by nia. subst c.
    rewrite Z.mul_0_r. simpl. lia.
  - simpl SFmul. simpl mag in *.
    assert (Hprod : Zpos (m1 * m2) * 2 ^ (e1 + e2 + scale) = Zpos m1 * 2 ^ (e1 + scale) * c).
    { apply (Z.mul_cancel_r _ _ (2 ^ scale)); [lia|].
      rewrite <- (Z.mul_assoc _ c), <- Hc, Pos2Z.inj_mul.
      replace (e1 + e2 + scale) with ((e1 + scale) + (e2 + scale) - scale) by lia.
      assert (2 ^ (e1 + scale + (e2 + scale) - scale) * 2 ^ scale = 2 ^ (e1 + scale) * 2 ^ (e2 + scale)) as Hpow.
      { rewrite <- !pow2_split by lia. f_equal. lia. }
      rewrite <- Z.mul_assoc, Hpow. ring. }
    rewrite <- Hprod in *.
    destruct (round_aux_error false (m1 * m2) (e1 + e2) p) as [Hok Herr]; [lia | lia | lia |].
    split; [by apply finite_sign_nonneg | exact Herr].
Qed.

(** Integers up to 255 convert exactly. *)

Lemma int_float_table :
  forallb int_float_ok (map Z.of_nat (seq 0 256)) = true.
Proof. vm_compute. reflexivity. Qed.

Lemma of_int_exact (a : Z) :
  0 <= a <= 255 ->
  nonneg_float (binary_normalize 24 128 a 0 false) /\ mag (binary_normalize 24 128 a 0 false) = a * 2 ^ scale.
Proof.
  intros Ha.
  assert (Hin : In a (map Z.of_nat (seq 0 256))).
  { apply in_map_iff. exists (Z.to_nat a). split; [lia|]. apply in_seq. lia. }
  pose proof (proj1 (forallb_forall _ _) int_float_table a Hin) as Hok.
  unfold int_float_ok in Hok.
  destruct (binary_normalize 24 128 a 0 false) as [s| | |[] m e]; try discriminate.
  - apply Z.eqb_eq in Hok. subst a. split; [left; by eexists | reflexivity].
  - apply andb_true_iff in Hok as [He Hm].
    apply Z.leb_le in He. apply Z.eqb_eq in Hm.
    split; [right; by exists m, e | exact Hm].
Qed.


(** A [float] weight between 0 and 1. *)

Lemma f_one_val : f_one = one32.
Proof. vm_compute. reflexivity. Qed.

Lemma unit_weight_mag (alpha : float) :
  unit_weight alpha -> nonneg_float alpha /\ mag alpha <= 2 ^ scale.
Proof.
  intros (Hvalid & H0 & H1). pose proof scale_val as HK.
  assert (HK0 : 0 < 2 ^ scale) by (apply pow2_pos; lia).
  destruct alpha as [s|s| |s m e].
  - split; [left; by eexists | simpl; lia].
  - destruct s; discriminate.
  - discriminate.
  - destruct s; [discriminate|].
    unfold valid_binary, bounded, canonical_mantissa in Hvalid.
    apply andb_true_iff in Hvalid as [Hcan _]. apply Z.eqb_eq in Hcan.
    change (fexp F32.prec F32.emax ?x) with (Z.max (x - 24) (-149)) in Hcan.
    pose proof (digits_bounds m) as Hd.
    set (d := Zpos (digits2_pos m)) in *.
    assert (Hd24 : d <= 24) by lia.
    assert (He : -149 <= e) by lia.
    split; [right; by exists m, e|]. simpl mag.
    assert (Hm24 : Zpos m < 2 ^ 24).
    { assert (2 ^ d <= 2 ^ 24) by (apply Z.pow_le_mono_r; lia). lia. }
    rewrite f_one_val in H1. unfold SFleb, SFcompare, one32 in H1.
    destruct (Z.compare_spec e (-23)) as [Heq | Hlt | Hgt]; [| |discriminate].
    + subst e.
      change (PosDef.Pos.compare_cont Eq m 8388608) with (Pos.compare m 8388608) in H1.
      assert (Hm : Zpos m <= 8388608).
      { destruct (Pos.compare_spec m 8388608); [lia | lia | discriminate]. }
      replace scale with (23 + (-23 + scale)) at 2 by lia.
      rewrite (pow2_split 23 (-23 + scale)) by lia.
      pose proof (pow2_pos (-23 + scale)). change (2 ^ 23) with 8388608. nia.
    + assert (Hle : 2 ^ (24 + (e + scale)) <= 2 ^ scale) by (apply Z.pow_le_mono_r; lia).
      rewrite pow2_split in Hle by lia.
      pose proof (pow2_pos (e + scale)). nia.
Qed.

Lemma trunc_mag (v : float) : nonneg_float v -> F32.trunc v = mag v / 2 ^ scale.
Proof.
  intros Hv. pose proof scale_val as HK.
  assert (HK0 : 0 < 2 ^ scale) by (apply pow2_pos; lia).
  destruct Hv as [[s ->] | (m & e & -> & He)]; [reflexivity|].
  simpl. destruct e as [|k|k].
  - rewrite Z.shiftl_0_r. simpl. by rewrite Z.div_mul by lia.
  - rewrite Z.shiftl_mul_pow2 by lia. rewrite pow2_split by lia.
    by rewrite Z.mul_assoc, Z.div_mul by lia.
  - rewrite Z.shiftr_div_pow2 by lia.
    replace scale with (Zpos k + (Zneg k + scale)) at 2 by lia.
    rewrite (pow2_split (Zpos k) (Zneg k + scale)) by lia.
    rewrite Z.div_mul_cancel_r; [reflexivity | | ].
    + pose proof (pow2_pos (Zpos k)). lia.
    + pose proof (pow2_pos (Zneg k + scale)). lia.
Qed.


Lemma of_int_one : F32.of_int 1 = one32.
Proof. vm_compute. reflexivity. Qed.

Lemma scale_by_channel (v1 v2 a : Z) : v1 <= v2 -> 0 <= a -> v1 * a <= v2 * a.
Proof. intros. by apply Z.mul_le_mono_nonneg_r. Qed.

Lemma convex_between (P A a c : Z) :
  0 <= A <= P ->
  P * Z.min a c <= (P - A) * a + A * c <= P * Z.max a c.
Proof.
  intros HA.
  pose proof (scale_by_channel 0 (P - A) (a - Z.min a c)).
  pose proof (scale_by_channel 0 A (c - Z.min a c)).
  pose proof (scale_by_channel 0 (P - A) (Z.max a c - a)).
  pose proof (scale_by_channel 0 A (Z.max a c - c)).
  lia.
Qed.

(** C9, as amended.  For every binary32 weight between 0 and 1 and all
    channel values in 0..255, the channel the code stores is at most the
    larger of the two channels and at least the smaller one minus 1: the
    weighted sum is rounded four times and then cut to its integer part,
    which can lose one unit below, never gain one above. *)
Theorem blend_channel_within_one (alpha : float) (a c : Z) :
  unit_weight alpha -> 0 <= a <= 255 -> 0 <= c <= 255 ->
  Z.min a c - 1 <= blend_channel alpha a c <= Z.max a c.
Proof.
  intros Hw Ha Hc. pose proof scale_val as HK.
  destruct (unit_weight_mag alpha Hw) as [Hal HA].
  unfold blend_channel, F32.add, F32.mul, F32.sub. rewrite of_int_one.
  unfold F32.of_int, F32.prec, F32.emax.
  destruct (of_int_exact a Ha) as [Hfa Hma], (of_int_exact c Hc) as [Hfc Hmc].
  set (fa := binary_normalize 24 128 a 0 false) in *.
  set (fc := binary_normalize 24 128 c 0 false) in *.
  set (eps := 2 ^ (scale - 25)).
  assert (Heps : 0 < eps) by (apply pow2_pos; lia).
  assert (HP : 2 ^ scale = 33554432 * eps).
  { unfold eps. replace scale with (25 + (scale - 25)) at 1 by lia.
    rewrite pow2_split by lia. reflexivity. }
  assert (HP1 : 2 ^ (1 - 25 + scale) = 2 * eps).
  { unfold eps. replace (1 - 25 + scale) with (1 + (scale - 25)) by lia.
    rewrite pow2_split by lia. reflexivity. }
  assert (HP9 : 2 ^ (9 - 25 + scale) = 512 * eps).
  { unfold eps. replace (9 - 25 + scale) with (9 + (scale - 25)) by lia.
    rewrite pow2_split by lia. reflexivity. }
  assert (HQ9 : 2 ^ (9 + scale) = 512 * 2 ^ scale).
  { rewrite pow2_split by lia. reflexivity. }
  pose proof (mag_nonneg alpha) as HA0.
  set (A := mag alpha) in *. set (P := 2 ^ scale) in *.
  destruct (sub_one_error alpha Hal HA) as [Hu HU].
  set (u := SFsub 24 128 one32 alpha) in *.
  pose proof (mag_nonneg u) as HU0. fold A P in HU.
  set (U := mag u) in *.
  rewrite HP1 in HU. apply Z.abs_le in HU.
  pose proof (scale_by_channel (P - A - 2 * eps) U a) as HUa1.
  pose proof (scale_by_channel U (P - A + 2 * eps) a) as HUa2.
  pose proof (scale_by_channel 0 U a) as HUa3.
  pose proof (scale_by_channel 0 U (255 - a)) as HUa4.
  pose proof (scale_by_channel 0 eps a) as He1.
  pose proof (scale_by_channel 0 eps (255 - a)) as He2.
  pose proof (scale_by_channel 0 A c) as HAc1.
  pose proof (scale_by_channel 0 A (255 - c)) as HAc2.
  pose proof (convex_between P A a c) as Hconv.
  destruct (mul_int_error u fa a 9 Hu Hfa Hma) as [Ht1 HT1];
    [lia | fold U; rewrite HQ9; fold P; lia |].
  set (t1 := SFmul 24 128 u fa) in *. fold U in HT1. set (T1 := mag t1) in *.
  rewrite HP9 in HT1. apply Z.abs_le in HT1.
  destruct (mul_int_error alpha fc c 9 Hal Hfc Hmc) as [Ht2 HT2];
    [lia | fold A; rewrite HQ9; fold P; lia |].
  set (t2 := SFmul 24 128 alpha fc) in *. fold A in HT2. set (T2 := mag t2) in *.
  rewrite HP9 in HT2. apply Z.abs_le in HT2.
  destruct (add_error t1 t2 9 Ht1 Ht2) as [Hs HS];
    [lia | fold T1 T2; rewrite HQ9; fold P; lia |].
  set (s := SFadd 24 128 t1 t2) in *. fold T1 T2 in HS.
  rewrite HP9 in HS. apply Z.abs_le in HS.
  pose proof (mag_nonneg s) as HS0.
  assert (Hbelow : P * (Z.min a c - 1) <= mag s) by lia.
  assert (Habove : mag s < P * (Z.max a c + 1)) by lia.
  assert (HK0 : 0 < P) by lia.
  assert (Htr : Z.min a c - 1 <= F32.trunc s <= Z.max a c).
  { rewrite trunc_mag by assumption. fold P. split.
    - apply Z.div_le_lower_bound; lia.
    - apply Z.lt_succ_r. apply Z.div_lt_upper_bound; lia. }
  assert (Htr0 : 0 <= F32.trunc s).
  { rewrite trunc_mag by assumption. fold P. apply Z.div_pos; lia. }
  unfold F32.to_uint8.
  destruct Hs as [[sg Hz] | (ms & es & Hfin & Hes)].
  - rewrite Hz in *. simpl in Htr. exact Htr.
  - rewrite Hfin in *.
    replace ((- 2 ^ 31 <=? F32.trunc (S754_finite false ms es))
             && (F32.trunc (S754_finite false ms es) <? 2 ^ 31)) with true.
    + rewrite Z.mod_small by lia. exact Htr.
    + symmetry. apply andb_true_iff. split; [apply Z.leb_le | apply Z.ltb_lt]; lia.
Qed.

Lemma blend_channel_within_one_witness :
  unit_weight (blend_alpha (F32.of_int 3) (F32.of_int 4)) /\
  Z.min 255 255 - 1
    <= blend_channel (blend_alpha (F32.of_int 3) (F32.of_int 4)) 255 255
    <= Z.max 255 255.
Proof.
  assert (Hw : unit_weight (blend_alpha (F32.of_int 3) (F32.of_int 4)))
    by (vm_compute; repeat split; reflexivity).
  split; [exact Hw|].
  apply (blend_channel_within_one _ 255 255 Hw); lia.
Defined.

End BlendBound.

(** ** The run *)

Section RunFacts.
Context `{KdTreeFLANN}.
Variable lexical_cast : string -> option double.
Variable indeterminate : nat -> nat -> double.
Variable clean : PointCloudRGB -> PointCloudRGB.
Variable Affine3d : Type.
Variable relative_pose : Transform -> Transform -> Affine3d.
Variable inverse : Affine3d -> Affine3d.
Variable transformPointCloud : PointCloudXYZW -> Affine3d -> PointCloudXYZW.
Variable contour : float -> PointCloudXYZW -> PointCloudXY.
Variable final_filter : float -> PointCloudRGB -> PointCloudRGB.

Local Abbreviation readPoses' := (readPoses lexical_cast indeterminate).
Local Abbreviation build3D' :=
  (build3D lexical_cast indeterminate clean Affine3d relative_pose inverse
     transformPointCloud contour final_filter).

(** [readPoses] has a single [return], and it returns [true]. *)
Lemma readPoses_flag (params : Params) (fs : FileSystem) (ok : bool)
    (cloud_poses : list (string * Transform)) :
  readPoses' params fs = Returns (ok, cloud_poses) -> ok = true.
Proof.
  unfold readPoses. destruct (fs_polls fs _); [|discriminate].
  destruct (read_lines _ _ _ _); simpl; [|discriminate..].
  by intros [= <- _].
Qed.

(** C1.  With no poses file in the working directory [readPoses] still
    returns [true], with no pose, and [build3D] goes on to the output
    filters and to the save call, with the empty accumulator.  With a poses
    file whose only line stops after the cloud name, [readPoses] returns
    [true] with a pose made of that name and the seven uninitialised
    numbers of line 0, and [build3D] loads the cloud, makes it the
    accumulator and saves it. *)
Theorem unreadable_poses_run_goes_on :
  readPoses' Scenes.params Scenes.no_files = Returns (true, []) /\
  build3D' Scenes.params Scenes.no_files =
    Returns {| loaded := [];
               saved := [("/data/run/reconstruction.pcd"%string, final_filter voxel_size [])] |} /\
  readPoses' Scenes.params Scenes.truncated_poses =
    Returns (true, [("cloud0.pcd"%string,
                     mkTransform (indeterminate 0 0) (indeterminate 0 1) (indeterminate 0 2)
                                 (indeterminate 0 3) (indeterminate 0 4) (indeterminate 0 5)
                                 (indeterminate 0 6))]) /\
  build3D' Scenes.params Scenes.truncated_poses =
    Returns {| loaded := ["/data/run/clouds/cloud0.pcd"%string];
               saved := [("/data/run/reconstruction.pcd"%string,
                          final_filter voxel_size
                            (map to_RGB (map to_XYZW (clean [Scenes.inner_pt]))))] |}.
Proof. repeat split; reflexivity. Qed.
End RunFacts.

(** * Further properties *)

(** ** The order on [float], continued *)

Lemma ltb_cotrans (a b c : float) :
  F32.ltb a c = true -> b <> S754_nan -> F32.ltb a b = true \/ F32.ltb b c = true.
Proof.
  unfold F32.ltb, SFltb.
  destruct a as [sa|sa| |sa ma ea], b as [sb|sb| |sb mb eb], c as [sc|sc| |sc mc ec];
    simpl; intros Hac Hb; try discriminate; try congruence;
    try (destruct sa; discriminate); try (destruct sc; discriminate);
    try (destruct sa, sc; discriminate).
  all: try (destruct sa, sb, sc; simpl in *;
            first [discriminate | left; reflexivity | right; reflexivity | idtac]).
  all: repeat match goal with
       | |- context [PosDef.Pos.compare_cont Eq ?p ?q] =>
           change (PosDef.Pos.compare_cont Eq p q) with (Pos.compare p q)
       | H : context [PosDef.Pos.compare_cont Eq ?p ?q] |- _ =>
           change (PosDef.Pos.compare_cont Eq p q) with (Pos.compare p q) in H
       end.
  all: try (destruct (Z.compare_spec ea eb), (Z.compare_spec eb ec), (Z.compare_spec ea ec);
       simpl in *; try discriminate; try lia; subst;
       first [left; reflexivity | right; reflexivity | idtac]).
  all: try (destruct (Pos.compare_spec ma mb), (Pos.compare_spec mb mc), (Pos.compare_spec ma mc);
       simpl in *; try discriminate; try lia;
       first [left; reflexivity | right; reflexivity | idtac]).
Qed.

Lemma ltb_nan_r (a : float) : F32.ltb a S754_nan = false.
Proof. by destruct a as [?|[]| |[] ? ?]. Qed.

(** ** [setParameters] *)

Lemma last_char_cons (c : ascii) (s : string) :
  s <> EmptyString -> last_char (String c s) = last_char s.
Proof.
  unfold last_char. destruct s as [|c' s']; [congruence|]. intros _.
  simpl. by rewrite Nat.sub_0_r.
Qed.

Lemma append_nonempty (s t : string) : t <> EmptyString -> String.append s t <> EmptyString.
Proof. destruct s; simpl; [auto | discriminate]. Qed.

Lemma last_char_append (s t : string) :
  t <> EmptyString -> last_char (String.append s t) = last_char t.
Proof.
  intros Ht. induction s as [|c s IH]; [reflexivity|].
  simpl. rewrite last_char_cons; [exact IH | by apply append_nonempty].
Qed.

Lemma append_assoc (s t u : string) :
  String.append (String.append s t) u = String.append s (String.append t u).
Proof. induction s as [|c s IH]; simpl; congruence. Qed.

Lemma setParameters_slash (dir : string) :
  last_char dir = Some "/"%char ->
  setParameters dir =
    {| work_dir := dir;
       clouds_dir := String.append dir "clouds/";
       output_dir := String.append dir "clouds/output/";
       graph_file := String.append dir "graph_vertices.txt" |}.
Proof. unfold setParameters, last_char. by intros ->. Qed.

Lemma setParameters_no_slash (dir : string) :
  last_char dir <> Some "/"%char ->
  setParameters dir = setParameters (String.append dir "/").
Proof.
  intros Hd. rewrite (setParameters_slash (String.append dir "/")).
  2: { by rewrite last_char_append. }
  unfold setParameters. fold (last_char dir).
  destruct (last_char dir) as [c|] eqn:Hc; [|reflexivity].
  destruct (Ascii.eqb_spec c "/"%char) as [-> | Hne]; [congruence|].
  destruct c as [[] [] [] [] [] [] [] []]; try reflexivity. congruence.
Qed.

(** X1.  For a directory that is not the empty string, the working
    directory of the parameters ends in a slash, one being added only when
    it is missing; so a directory and the same directory with the slash
    added give the same parameters, and passing the working directory back
    in changes nothing. *)
Theorem setParameters_normalises (dir : string) :
  dir <> EmptyString ->
  let p := setParameters dir in
  last_char (work_dir p) = Some "/"%char /\
  (last_char dir = Some "/"%char -> work_dir p = dir) /\
  (last_char dir <> Some "/"%char ->
   work_dir p = String.append dir "/" /\ setParameters (String.append dir "/") = p) /\
  setParameters (work_dir p) = p.
Proof.
  intros _ p.
  assert (Hcases : last_char dir = Some "/"%char \/ last_char dir <> Some "/"%char).
  { destruct (last_char dir) as [c|]; [|right; discriminate].
    destruct (Ascii.eqb_spec c "/"%char) as [-> | Hne]; [by left | right; congruence]. }
  assert (Hslash : last_char (String.append dir "/") = Some "/"%char)
    by (by rewrite last_char_append).
  destruct Hcases as [Hs | Hn]; unfold p.
  - rewrite (setParameters_slash dir Hs). simpl.
    split; [assumption|]. split; [reflexivity|]. split; [by intros Hn|].
    by apply setParameters_slash.
  - rewrite (setParameters_no_slash dir Hn), (setParameters_slash _ Hslash). simpl.
    split; [assumption|]. split; [by intros Hs|]. split; [by intros _|].
    by apply setParameters_slash.
Qed.

Lemma setParameters_normalises_witness :
  work_dir (setParameters "/data/run") = "/data/run/"%string /\
  setParameters "/data/run/" = setParameters "/data/run" /\
  setParameters (work_dir (setParameters "/data/run")) = setParameters "/data/run".
Proof.
  assert (Hne : "/data/run"%string <> EmptyString) by discriminate.
  assert (Hlast : last_char "/data/run" <> Some "/"%char) by discriminate.
  destruct (setParameters_normalises "/data/run" Hne) as (_ & _ & H3 & H4).
  destruct (H3 Hlast) as [H31 H32]. auto.
Defined.

(** ** The lines of the poses file *)

Lemma append_empty_r (s : string) : String.append s EmptyString = s.
Proof. induction s as [|c s IH]; simpl; congruence. Qed.

Lemma fields_from_field (f s value : string) :
  comma_free f = true ->
  fields_from (String.append f s) value = fields_from s (String.append value f).
Proof.
  revert value. induction f as [|c f IH]; intros value Hf; simpl.
  - by rewrite append_empty_r.
  - simpl in Hf. apply andb_true_iff in Hf as [Hc Hf].
    apply negb_true_iff in Hc. rewrite Hc, IH by assumption.
    by rewrite append_assoc.
Qed.

Lemma join_fields_empty (fields : list string) :
  join_fields fields = EmptyString -> fields = [] \/ fields = [EmptyString].
Proof.
  destruct fields as [|f [|g rest]]; simpl; [by left | intros ->; by right |].
  intros Habs. destruct f; discriminate.
Qed.

Lemma split_join (fields : list string) :
  forallb comma_free fields = true -> last fields <> Some EmptyString ->
  split_fields (join_fields fields) = fields.
Proof.
  induction fields as [|f rest IH]; [reflexivity|]. intros Hfree Hlast.
  simpl in Hfree. apply andb_true_iff in Hfree as [Hf Hrest].
  destruct rest as [|g rest].
  - simpl. assert (Hne : f <> EmptyString) by (intros ->; by apply Hlast).
    unfold split_fields. destruct f as [|c f]; [congruence|].
    rewrite <- (append_empty_r (String c f)) at 1.
    rewrite fields_from_field by assumption. reflexivity.
  - assert (Hlast' : last (g :: rest) <> Some EmptyString) by exact Hlast.
    specialize (IH Hrest Hlast').
    change (join_fields (f :: g :: rest))
      with (String.append f (String ","%char (join_fields (g :: rest)))).
    assert (Hsplit : split_fields (String.append f (String ","%char (join_fields (g :: rest))))
                     = fields_from (String.append f (String ","%char (join_fields (g :: rest))))
                         EmptyString).
    { unfold split_fields. by destruct f. }
    rewrite Hsplit, fields_from_field by assumption. simpl String.append.
    cbn [fields_from]. rewrite Ascii.eqb_refl. f_equal.
    destruct (join_fields (g :: rest)) as [|c j] eqn:Hj.
    + apply join_fields_empty in Hj as [Hj | Hj]; [discriminate|].
      rewrite Hj in Hlast'. by contradiction Hlast'.
    + exact IH.
Qed.

Section ReadPosesFacts.
Variable lexical_cast : string -> option double.
Variable indeterminate : nat -> nat -> double.

Local Abbreviation read_field' := (read_field lexical_cast).
Local Abbreviation read_fields' := (read_fields lexical_cast).
Local Abbreviation read_line' := (read_line lexical_cast indeterminate).
Local Abbreviation read_lines' := (read_lines lexical_cast indeterminate).
Local Abbreviation readPoses' := (readPoses lexical_cast indeterminate).

Lemma read_field_beyond (i : nat) (value : string) (v : pose_vars) :
  12 <= i -> read_field' i value v = Returns v.
Proof.
  intros Hi. unfold read_field. destruct v.
  repeat match goal with
         | |- context [if ?j =? ?k then _ else _] => destruct (Nat.eqb_spec j k); [lia|]
         end.
  reflexivity.
Qed.

Lemma read_fields_beyond (fields : list string) (i : nat) (v : pose_vars) :
  12 <= i -> read_fields' i fields v = Returns v.
Proof.
  revert i. induction fields as [|f rest IH]; intros i Hi; [reflexivity|].
  simpl. rewrite read_field_beyond by assumption. simpl. apply IH. lia.
Qed.

(** What one field does: it throws when it is one of the fields 5 to 11
    and the cast rejects it, and yields new locals otherwise. *)
Lemma read_field_cases (i : nat) (value : string) (v : pose_vars) :
  (5 <= i <= 11 /\ lexical_cast value = None /\ read_field' i value v = Throws) \/
  (~ (5 <= i <= 11 /\ lexical_cast value = None) /\
   exists v', read_field' i value v = Returns v').
Proof.
  unfold read_field, cast. destruct v.
  destruct (Nat.eqb_spec i 1); [right; split; [lia | eauto]|].
  do 7 (match goal with
        | |- context [if ?i =? ?k then _ else _] =>
            destruct (Nat.eqb_spec i k);
            [destruct (lexical_cast value);
             [right; split; [intros (_ & Hc); discriminate | eauto]
             | left; repeat split; (lia || reflexivity)]|]
        end).
  right. split; [lia | eauto].
Qed.

Lemma read_fields_throws (fields : list string) (i : nat) (v : pose_vars) :
  read_fields' i fields v <> Diverges /\
  (read_fields' i fields v = Throws <->
   exists k f, fields !! k = Some f /\ 5 <= i + k <= 11 /\ lexical_cast f = None).
Proof.
  revert i v. induction fields as [|value rest IH]; intros i v.
  { split; [discriminate|]. split; [discriminate|]. by intros (k & f & Hk & _). }
  simpl.
  destruct (read_field_cases i value v) as [(Hi & Hc & ->) | (Hno & v' & ->)]; simpl.
  - split; [discriminate|]. split; [|reflexivity]. intros _.
    exists 0, value. repeat split; (reflexivity || lia || assumption).
  - destruct (IH (S i) v') as [Hdiv Hthrow]. split; [exact Hdiv|].
    rewrite Hthrow. split.
    + intros (k & f & Hk & Hik & Hf). exists (S k), f. repeat split; (assumption || lia).
    + intros (k & f & Hk & Hik & Hf). destruct k as [|k].
      * simpl in Hk. injection Hk as <-. exfalso. apply Hno. split; [lia | assumption].
      * exists k, f. repeat split; (assumption || lia).
Qed.

Lemma read_line_not_diverges (k : nat) (line : string) : read_line' k line <> Diverges.
Proof.
  unfold read_line.
  match goal with |- context [read_fields' 0 ?fs ?v0] =>
    destruct (read_fields_throws fs 0 v0) as [Hdiv _];
    destruct (read_fields' 0 fs v0) end; simpl; congruence.
Qed.

(** X4.  A line throws exactly when one of its fields 5 to 11 is there and
    the cast rejects it; it never hangs. *)
Theorem read_line_throws_iff (k : nat) (line : string) :
  (read_line' k line = Throws <->
   exists j f, split_fields line !! j = Some f /\ 5 <= j <= 11 /\ lexical_cast f = None) /\
  read_line' k line <> Diverges.
Proof.
  unfold read_line.
  match goal with |- context [read_fields' 0 ?fs ?v0] =>
    destruct (read_fields_throws fs 0 v0) as [Hdiv Hthrow];
    destruct (read_fields' 0 fs v0) eqn:Hr end; simpl.
  - split; [|discriminate]. split; [discriminate|]. intros Hex.
    apply Hthrow in Hex. discriminate.
  - split; [|discriminate]. split; [|reflexivity]. intros _.
    by apply Hthrow.
  - congruence.
Qed.

(** X2.  A full line: the name is field 1 with ".pcd" added, the translation
    fields 5 to 7, the quaternion fields 8 to 11; fields 0, 2, 3, 4 and any
    field after the twelfth are not looked at, nor is what the locals held
    before. *)
Theorem read_line_well_formed (k : nat) (f0 f1 f2 f3 f4 f5 f6 f7 f8 f9 f10 f11 : string)
    (more : list string) (dx dy dz dqx dqy dqz dqw : double) :
  let fields := f0 :: f1 :: f2 :: f3 :: f4 :: f5 :: f6 :: f7 :: f8 :: f9 :: f10 :: f11 :: more in
  forallb comma_free fields = true ->
  last fields <> Some EmptyString ->
  lexical_cast f5 = Some dx -> lexical_cast f6 = Some dy -> lexical_cast f7 = Some dz ->
  lexical_cast f8 = Some dqx -> lexical_cast f9 = Some dqy ->
  lexical_cast f10 = Some dqz -> lexical_cast f11 = Some dqw ->
  read_line' k (join_fields fields) =
    Returns (String.append f1 ".pcd", mkTransform dx dy dz dqx dqy dqz dqw).
Proof.
  intros fields Hfree Hlast H5 H6 H7 H8 H9 H10 H11.
  unfold read_line. rewrite split_join by assumption.
  unfold fields. cbn [read_fields read_field Nat.eqb bind].
  unfold cast. rewrite H5. cbn [bind read_field Nat.eqb].
  unfold cast. rewrite H6. cbn [bind read_field Nat.eqb].
  unfold cast. rewrite H7. cbn [bind read_field Nat.eqb].
  unfold cast. rewrite H8. cbn [bind read_field Nat.eqb].
  unfold cast. rewrite H9. cbn [bind read_field Nat.eqb].
  unfold cast. rewrite H10. cbn [bind read_field Nat.eqb].
  unfold cast. rewrite H11. cbn [bind].
  rewrite read_fields_beyond by lia. reflexivity.
Qed.

Lemma split_fields_length (line : string) :
  length (split_fields line) <= S (count_commas line).
Proof.
  assert (Hfrom : forall s value, length (fields_from s value) <= S (count_commas s)).
  { induction s as [|c s IH]; intros value; simpl; [lia|].
    destruct (Ascii.eqb c ","%char); simpl.
    - destruct s as [|c' s']; [simpl; lia|]. specialize (IH EmptyString). lia.
    - apply IH. }
  unfold split_fields. destruct line; [simpl; lia | apply Hfrom].
Qed.

(** X3.  A line of at most five fields: no number is read, so each of the
    seven numbers of the pose is what its own uninitialised local held when
    the line was entered; the name is field 1 with ".pcd" added, or empty
    when there is no field 1. *)
Theorem read_line_short (k : nat) (line : string) :
  count_commas line <= 4 ->
  read_line' k line =
    Returns (match split_fields line !! 1 with
             | Some f1 => String.append f1 ".pcd"
             | None => EmptyString
             end,
             mkTransform (indeterminate k 0) (indeterminate k 1) (indeterminate k 2)
                         (indeterminate k 3) (indeterminate k 4) (indeterminate k 5)
                         (indeterminate k 6)).
Proof.
  intros Hc. pose proof (split_fields_length line) as Hlen.
  unfold read_line.
  destruct (split_fields line) as [|g0 [|g1 [|g2 [|g3 [|g4 [|g5 rest]]]]]];
    simpl in Hlen; try lia; reflexivity.
Qed.

(** The lines read one after the other, numbered from the size of what
    was read before. *)
Local Abbreviation reads := (fun (kl : nat * string) pose => read_line' (fst kl) (snd kl) = Returns pose).

Lemma read_lines_returns (lines : list string) (sofar r : list (string * Transform)) :
  read_lines' lines sofar = Returns r <->
  exists poses, r = sofar ++ poses /\
                Forall2 reads (indexed_from (length sofar) lines) poses.
Proof.
  revert sofar. induction lines as [|line rest IH]; intros sofar; simpl.
  - split.
    + intros [= <-]. exists []. split; [by rewrite app_nil_r | constructor].
    + intros (poses & -> & Hall). inversion Hall. by rewrite app_nil_r.
  - destruct (read_line' (length sofar) line) as [pose| |] eqn:Hline; simpl.
    + rewrite IH, length_app. simpl. rewrite Nat.add_1_r. split.
      * intros (poses & -> & Hall). exists (pose :: poses).
        split; [by rewrite <- app_assoc | by constructor].
      * intros (poses & -> & Hall). inversion Hall as [|? p ? ps Hp Hps]; subst.
        simpl in Hp. rewrite Hline in Hp. injection Hp as <-. exists ps.
        split; [by rewrite <- app_assoc | assumption].
    + split; [discriminate|]. intros (poses & _ & Hall).
      inversion Hall; subst. simpl in *. congruence.
    + split; [discriminate|]. intros (poses & _ & Hall).
      inversion Hall; subst. simpl in *. congruence.
Qed.

Lemma read_lines_throws (lines : list string) (sofar : list (string * Transform)) :
  read_lines' lines sofar <> Diverges /\
  (read_lines' lines sofar = Throws <->
   exists k line, lines !! k = Some line /\ read_line' (length sofar + k) line = Throws).
Proof.
  revert sofar. induction lines as [|line rest IH]; intros sofar; simpl.
  - split; [discriminate|]. split; [discriminate|]. by intros (k & l & Hk & _).
  - pose proof (read_line_not_diverges (length sofar) line) as Hd.
    destruct (read_line' (length sofar) line) as [pose| |] eqn:Hline; simpl; [| |congruence].
    + destruct (IH (sofar ++ [pose])) as [Hdiv Hthrow]. split; [exact Hdiv|].
      rewrite Hthrow, length_app. simpl. split.
      * intros (k & l & Hl & Ht). exists (S k), l. split; [exact Hl|].
        by replace (length sofar + S k) with (length sofar + 1 + k) by lia.
      * intros (k & l & Hl & Ht). destruct k as [|k].
        -- simpl in Hl. injection Hl as <-. rewrite Nat.add_0_r in Ht. congruence.
        -- exists k, l. split; [exact Hl|].
           by replace (length sofar + 1 + k) with (length sofar + S k) by lia.
    + split; [discriminate|]. split; [|reflexivity]. intros _.
      exists 0, line. split; [reflexivity|]. by rewrite Nat.add_0_r.
Qed.

Lemma readPoses_unblocked (params : Params) (fs : FileSystem) (n : nat) :
  fs_polls fs (String.append (work_dir params) ".graph.block") = Some n ->
  readPoses' params fs =
    bind (read_lines' (poses_lines params fs) []) (fun cloud_poses => Returns (true, cloud_poses)).
Proof.
  intros Hb. unfold readPoses, poses_lines. rewrite Hb.
  by destruct (fs_lines fs (graph_file params)).
Qed.

(** X5.  When the lock file is not there, or is removed after some tests,
    [readPoses] returns exactly when every line of the poses file reads,
    with the flag set and one pose per line, in the order of the file; a
    poses file that cannot be opened counts as empty. *)
Theorem readPoses_one_pose_per_line (params : Params) (fs : FileSystem) (n : nat)
    (ok : bool) (cloud_poses : list (string * Transform)) :
  fs_polls fs (String.append (work_dir params) ".graph.block") = Some n ->
  readPoses' params fs = Returns (ok, cloud_poses) <->
  ok = true /\
  Forall2 (fun kl pose => read_line' (fst kl) (snd kl) = Returns pose)
          (indexed_from 0 (poses_lines params fs)) cloud_poses.
Proof.
  intros Hb. rewrite (readPoses_unblocked params fs n Hb).
  destruct (read_lines' (poses_lines params fs) []) as [r| |] eqn:Hr; simpl.
  - apply read_lines_returns in Hr as (poses & -> & Hall). simpl in *. split.
    + by intros [= <- <-].
    + intros [-> Hall']. do 2 f_equal.
      revert Hall Hall'. generalize (indexed_from 0 (poses_lines params fs)) as ls.
      intros ls Hall.
      revert cloud_poses. induction Hall as [|l p ls ps Hp _ IH]; intros cp Hcp.
      * by inversion Hcp.
      * inversion Hcp as [|? p' ? ps' Hp' Hps']; subst. f_equal; [congruence|]. by apply IH.
  - split; [discriminate|]. intros [_ Hall].
    assert (Hret : read_lines' (poses_lines params fs) [] = Returns ([] ++ cloud_poses))
      by (apply read_lines_returns; eauto).
    congruence.
  - by destruct (read_lines_throws (poses_lines params fs) []).
Qed.
End ReadPosesFacts.

Lemma read_line_well_formed_witness :
  read_line decimal_cast Samples.garbage 3 "0,cloud7,a,b,c,1,2,3,0,0,0,1" =
    Returns ("cloud7.pcd"%string,
             mkTransform (F64.of_int 1) (F64.of_int 2) (F64.of_int 3)
                         (F64.of_int 0) (F64.of_int 0) (F64.of_int 0) (F64.of_int 1)).
Proof.
  apply (read_line_well_formed decimal_cast Samples.garbage 3
           "0" "cloud7" "a" "b" "c" "1" "2" "3" "0" "0" "0" "1" []);
    (reflexivity || discriminate).
Defined.

Lemma read_line_short_witness :
  read_line decimal_cast Samples.garbage 1 "0,cloud0" =
    Returns ("cloud0.pcd"%string,
             mkTransform (F64.of_int 7) (F64.of_int 8) (F64.of_int 9) (F64.of_int 10)
                         (F64.of_int 11) (F64.of_int 12) (F64.of_int 13)).
Proof. apply (read_line_short decimal_cast Samples.garbage 1 "0,cloud0"). simpl. lia. Defined.

Lemma readPoses_one_pose_per_line_witness :
  readPoses decimal_cast Samples.garbage Scenes.params Samples.released_lock =
    Returns (true, [("cloud0.pcd"%string, Samples.garbage_pose 0)]).
Proof.
  apply (readPoses_one_pose_per_line decimal_cast Samples.garbage
           Scenes.params Samples.released_lock 3); [reflexivity|].
  split; [reflexivity|]. repeat constructor.
Defined.

(** ** How a run ends and what it saves *)

Lemma to_RGB_to_XYZW (cloud : PointCloudRGB) : map to_RGB (map to_XYZW cloud) = cloud.
Proof.
  induction cloud as [|pt cloud IH]; [reflexivity|]. simpl. rewrite IH. by destruct pt.
Qed.

Section RunOutcomes.
Context `{KdTreeFLANN}.
Variable lexical_cast : string -> option double.
Variable indeterminate : nat -> nat -> double.
Variable clean : PointCloudRGB -> PointCloudRGB.
Variable Affine3d : Type.
Variable relative_pose : Transform -> Transform -> Affine3d.
Variable inverse : Affine3d -> Affine3d.
Variable transformPointCloud : PointCloudXYZW -> Affine3d -> PointCloudXYZW.
Variable contour : float -> PointCloudXYZW -> PointCloudXY.
Variable final_filter : float -> PointCloudRGB -> PointCloudRGB.

Local Abbreviation readPoses' := (readPoses lexical_cast indeterminate).
Local Abbreviation read_line' := (read_line lexical_cast indeterminate).
Local Abbreviation accumulate' :=
  (accumulate clean Affine3d relative_pose inverse transformPointCloud contour).
Local Abbreviation merge_pass' :=
  (merge_pass Affine3d relative_pose inverse transformPointCloud contour).
Local Abbreviation build3D' :=
  (build3D lexical_cast indeterminate clean Affine3d relative_pose inverse
     transformPointCloud contour final_filter).

Variable params : Params.
Variable fs : FileSystem.

Local Abbreviation cloud_file := (fun name => String.append (clouds_dir params) name).

Lemma accumulate_unloadable tf0 name tfi rest acc :
  fs_pcd fs (cloud_file name) = None ->
  accumulate' params fs tf0 ((name, tfi) :: rest) acc = accumulate' params fs tf0 rest acc.
Proof. simpl. by intros ->. Qed.

Lemma accumulate_none_loadable tf0 poses acc :
  (forall p, In p poses -> fs_pcd fs (cloud_file (fst p)) = None) ->
  accumulate' params fs tf0 poses acc = acc.
Proof.
  induction poses as [|[name tfi] rest IH]; intros Hnone; [reflexivity|].
  rewrite accumulate_unloadable by (apply (Hnone (name, tfi)); by left).
  apply IH. intros p Hp. apply Hnone. by right.
Qed.

(** X7.  A pose whose cloud file cannot be loaded is passed over: the
    accumulator comes out as if the pose were not in the list. *)
Theorem unloadable_cloud_skipped tf0 pre name tfi post acc :
  fs_pcd fs (cloud_file name) = None ->
  accumulate' params fs tf0 (pre ++ (name, tfi) :: post) acc =
  accumulate' params fs tf0 (pre ++ post) acc.
Proof.
  intros Hnone. revert acc. induction pre as [|[n t] pre IH]; intros acc.
  - simpl app. by apply accumulate_unloadable.
  - simpl. destruct (fs_pcd fs (cloud_file n)); [|apply IH].
    destruct (length acc =? 0); apply IH.
Qed.

Lemma build3D_returns ok cloud_poses :
  readPoses' params fs = Returns (ok, cloud_poses) ->
  build3D' params fs =
    Returns {| loaded := map (fun p => cloud_file (fst p)) cloud_poses;
               saved := [(String.append (work_dir params) "reconstruction.pcd",
                          final_filter voxel_size
                            (map to_RGB match cloud_poses with
                                        | (_, tf0) :: _ => accumulate' params fs tf0 cloud_poses []
                                        | [] => []
                                        end))] |}.
Proof.
  intros Hr. pose proof (readPoses_flag _ _ _ _ _ _ Hr) as ->.
  unfold build3D. rewrite Hr. reflexivity.
Qed.

(** X8.  When none of the listed cloud files can be loaded the run still
    returns and still saves: the output filters run on the empty cloud. *)
Theorem no_cloud_loaded_still_saves ok cloud_poses :
  readPoses' params fs = Returns (ok, cloud_poses) ->
  (forall p, In p cloud_poses -> fs_pcd fs (cloud_file (fst p)) = None) ->
  build3D' params fs =
    Returns {| loaded := map (fun p => cloud_file (fst p)) cloud_poses;
               saved := [(String.append (work_dir params) "reconstruction.pcd",
                          final_filter voxel_size [])] |}.
Proof.
  intros Hr Hnone. rewrite (build3D_returns _ _ Hr).
  destruct cloud_poses as [|[n tf0] rest]; [reflexivity|].
  by rewrite accumulate_none_loadable.
Qed.

(** X9.  When exactly one of the listed cloud files can be loaded, the saved
    cloud is that cloud, cleaned and put through the output filters: no
    merge pass runs, and the blended flag added on the way in is dropped on
    the way out. *)
Theorem only_cloud_is_output ok pre name tfi post in_cloud :
  readPoses' params fs = Returns (ok, pre ++ (name, tfi) :: post) ->
  (forall p, In p (pre ++ post) -> fs_pcd fs (cloud_file (fst p)) = None) ->
  fs_pcd fs (cloud_file name) = Some in_cloud ->
  build3D' params fs =
    Returns {| loaded := map (fun p => cloud_file (fst p)) (pre ++ (name, tfi) :: post);
               saved := [(String.append (work_dir params) "reconstruction.pcd",
                          final_filter voxel_size (clean in_cloud))] |}.
Proof.
  intros Hr Hnone Hsome. rewrite (build3D_returns _ _ Hr). do 4 f_equal.
  assert (Hacc : forall tf0, accumulate' params fs tf0 (pre ++ (name, tfi) :: post) []
                             = map to_XYZW (clean in_cloud)).
  { intros tf0.
    assert (Hpre : forall p, In p pre -> fs_pcd fs (cloud_file (fst p)) = None)
      by (intros p Hp; apply Hnone, in_or_app; by left).
    assert (Hpost : forall p, In p post -> fs_pcd fs (cloud_file (fst p)) = None)
      by (intros p Hp; apply Hnone, in_or_app; by right).
    clear Hr Hnone. induction pre as [|[n t] pre IH].
    - simpl. rewrite Hsome. simpl. by apply accumulate_none_loadable.
    - pose proof (Hpre (n, t) ltac:(by left)) as Hn. simpl in Hn.
      simpl. rewrite Hn. apply IH.
      intros p Hp. apply Hpre. by right. }
  destruct (pre ++ (name, tfi) :: post) as [|[n tf0] rest] eqn:Hposes.
  { by destruct pre. }
  by rewrite Hacc, to_RGB_to_XYZW.
Qed.

(** X6.  How a run ends when it does not return.  It hangs exactly when
    the lock file is never removed; a lock file that is removed after some
    tests only delays it.  It is left by an exception exactly when the lock
    file is gone at some test and some line of the poses file has a field 5
    to 11 that the cast rejects.  Either way the run ends inside
    [readPoses], the way [readPoses] ends. *)
Theorem build3D_hangs_or_throws :
  (build3D' params fs = Diverges <->
   fs_polls fs (String.append (work_dir params) ".graph.block") = None) /\
  (build3D' params fs = Throws <->
   (exists n, fs_polls fs (String.append (work_dir params) ".graph.block") = Some n) /\
   exists k line, poses_lines params fs !! k = Some line /\ read_line' k line = Throws) /\
  (build3D' params fs = Diverges <-> readPoses' params fs = Diverges) /\
  (build3D' params fs = Throws <-> readPoses' params fs = Throws).
Proof.
  assert (Hsame : (build3D' params fs = Diverges <-> readPoses' params fs = Diverges) /\
                  (build3D' params fs = Throws <-> readPoses' params fs = Throws)).
  { unfold build3D. destruct (readPoses' params fs) as [[ok poses]| |]; simpl.
    - destruct (negb ok); split; split; discriminate.
    - split; [split; discriminate | done].
    - split; [done | split; discriminate]. }
  destruct Hsame as [HD HT]. rewrite HD, HT.
  destruct (fs_polls fs (String.append (work_dir params) ".graph.block")) as [n|] eqn:Hb.
  - rewrite (readPoses_unblocked _ _ _ _ n Hb).
    destruct (read_lines_throws lexical_cast indeterminate (poses_lines params fs) [])
      as [Hdiv Hthrow].
    destruct (read_lines lexical_cast indeterminate (poses_lines params fs) []) eqn:Hr;
      simpl; [| |congruence].
    + split; [split; discriminate|]. split; [|split; reflexivity].
      split; [discriminate|]. intros [_ Hex]. apply Hthrow in Hex. discriminate.
    + split; [split; discriminate|]. split; [|split; reflexivity].
      split; [|reflexivity]. intros _. split; [by exists n | by apply Hthrow].
  - assert (Hd : readPoses' params fs = Diverges) by (unfold readPoses; by rewrite Hb).
    rewrite Hd. split; [split; reflexivity|]. split; [|split; reflexivity].
    split; [discriminate|]. intros [[n Hn] _]. discriminate.
Qed.
End RunOutcomes.

(** ** The footprint of a merge *)

Lemma map_xy_insert (acc : PointCloudXYZW) (i : nat) (q : PointXYZRGBW) :
  x q = x (acc !!! i) -> y q = y (acc !!! i) ->
  map xy_of_acc (<[ i := q ]> acc) = map xy_of_acc acc.
Proof.
  intros Hx Hy. destruct (decide (i < length acc)) as [Hi | Hi].
  - change (map xy_of_acc) with (fmap (M := list) xy_of_acc).
    rewrite list_fmap_insert. apply list_insert_id.
    rewrite list_lookup_fmap.
    destruct (lookup_lt_is_Some_2 acc i Hi) as [q0 Hq0].
    rewrite Hq0. simpl. f_equal.
    rewrite (list_lookup_total_correct _ _ _ Hq0) in Hx, Hy.
    unfold xy_of_acc. by rewrite Hx, Hy.
  - rewrite list_insert_ge by lia. reflexivity.
Qed.

Lemma map_xy_of_coords (l l' : PointCloudXYZW) :
  map x l = map x l' -> map y l = map y l' -> map xy_of_acc l = map xy_of_acc l'.
Proof.
  revert l'. induction l as [|q l IH]; intros [|q' l'] Hx Hy; try discriminate; [reflexivity|].
  simpl in *. injection Hx as Hx Hxs. injection Hy as Hy Hys.
  unfold xy_of_acc at 1 3. rewrite Hx, Hy. f_equal. by apply IH.
Qed.

Section MergeFootprint.
Context `{KdTreeFLANN}.
Variable acc_xy : PointCloudXY.
Variable acc_contour_xy : PointCloudXY.
Variable cloud : PointCloudRGB.
Variable max_dist : float.
Variable max_contour_dist : float.

Local Abbreviation radius := (coverage_radius max_dist).
Local Abbreviation insert_or_update' :=
  (insert_or_update acc_xy acc_contour_xy max_dist max_contour_dist).
Local Abbreviation merge_overlap' := (merge_overlap acc_contour_xy max_dist max_contour_dist).
Local Abbreviation merge_point' :=
  (merge_point acc_xy acc_contour_xy cloud max_dist max_contour_dist).
Local Abbreviation merge_points' :=
  (merge_points acc_xy acc_contour_xy cloud max_dist max_contour_dist).
Local Abbreviation fix_colors' := (fix_colors acc_contour_xy cloud max_contour_dist).
Local Abbreviation adds_point' := (adds_point acc_xy max_dist).

Lemma merge_point_footprint pt acc :
  map xy_of_acc (fst (merge_point' pt acc)) =
  map xy_of_acc acc ++ (if adds_point' pt then [xy_of_cloud pt] else []).
Proof.
  rewrite merge_point_acc.
  destruct (map_fixed_coords acc_contour_xy cloud max_contour_dist
              (snd (fst (insert_or_update' pt acc))) (fst (fst (insert_or_update' pt acc))))
    as (Hx & Hy & _).
  rewrite (map_xy_of_coords _ _ Hx Hy). clear Hx Hy.
  unfold adds_point.
  destruct (radiusSearch acc_xy (xy_of_cloud pt) radius 10) as [|nb nbrs] eqn:Hn.
  - rewrite (insert_or_update_none _ _ _ _ _ _ Hn). simpl.
    by rewrite map_app.
  - rewrite (insert_or_update_some _ _ _ _ _ _ (nb :: nbrs) Hn) by discriminate.
    cbn [fst snd].
    destruct (is_border max_dist (map snd (nb :: nbrs))) eqn:Hb.
    + rewrite (merge_overlap_border _ _ _ _ _ _ Hb). by rewrite map_app.
    + rewrite (merge_overlap_inner _ _ _ _ _ _ Hb). rewrite app_nil_r.
      by apply map_xy_insert.
Qed.

Lemma merge_points_footprint (pts : list PointRGB) (acc : PointCloudXYZW) :
  map xy_of_acc (fst (merge_points' pts acc)) =
  map xy_of_acc acc ++ map xy_of_cloud (List.filter adds_point' pts).
Proof.
  revert acc. induction pts as [|pt rest IH]; intros acc.
  - simpl. by rewrite app_nil_r.
  - simpl. pose proof (merge_point_footprint pt acc) as Hpt.
    destruct (merge_point' pt acc) as [acc1 e1]. specialize (IH acc1).
    destruct (merge_points' rest acc1) as [acc2 e2]. simpl in *.
    rewrite IH, Hpt, <- app_assoc. f_equal.
    by destruct (adds_point' pt).
Qed.

Lemma merge_points_length (pts : list PointRGB) (acc : PointCloudXYZW) :
  length (fst (merge_points' pts acc)) = length acc + length (List.filter adds_point' pts).
Proof.
  pose proof (merge_points_footprint pts acc) as Hxy.
  apply (f_equal length) in Hxy. by rewrite length_app, !length_map in Hxy.
Qed.

(** X11.  In the plane a merge never moves or drops a point: after the loop the
    planar positions are those of the accumulator before it, followed by
    the positions of the cloud points that have no match within
    [max_dist], in the order of the cloud; the other cloud points add
    nothing. *)
Theorem merge_keeps_footprint (pts : list PointRGB) (acc : PointCloudXYZW) :
  let acc' := fst (merge_points' pts acc) in
  map xy_of_acc acc' =
    map xy_of_acc acc ++ map xy_of_cloud (List.filter adds_point' pts) /\
  length acc' = length acc + length (List.filter adds_point' pts) /\
  length acc <= length acc' <= length acc + length pts.
Proof.
  intros acc'. unfold acc'.
  pose proof (merge_points_length pts acc) as Hlen.
  pose proof (filter_length_le adds_point' pts).
  repeat split; [apply merge_points_footprint | exact Hlen | lia | lia].
Qed.
End MergeFootprint.

(** ** What a merge leaves alone *)

Section MergeFrame.
Context `{KdTreeFLANN}.
Variable acc_xy : PointCloudXY.
Variable acc_contour_xy : PointCloudXY.
Variable cloud : PointCloudRGB.
Variable max_dist : float.
Variable max_contour_dist : float.

Local Abbreviation radius := (coverage_radius max_dist).
Local Abbreviation insert_or_update' :=
  (insert_or_update acc_xy acc_contour_xy max_dist max_contour_dist).
Local Abbreviation merge_overlap' := (merge_overlap acc_contour_xy max_dist max_contour_dist).
Local Abbreviation merge_point' :=
  (merge_point acc_xy acc_contour_xy cloud max_dist max_contour_dist).
Local Abbreviation merge_points' :=
  (merge_points acc_xy acc_contour_xy cloud max_dist max_contour_dist).
Local Abbreviation matches := (fun pt => map fst (radiusSearch acc_xy (xy_of_cloud pt) radius 10)).

Lemma primary_is_a_match (nbrs : list (nat * float)) :
  nbrs <> [] -> map fst nbrs !!! min_element (map snd nbrs) ∈ map fst nbrs.
Proof.
  intros Hne.
  assert (Hne' : map snd nbrs <> []) by (by destruct nbrs).
  destruct (min_element_least _ Hne') as (d & Hd & _).
  destruct (lookup_map_pair nbrs _ _ Hd) as (i & Hi & Hprim). rewrite Hprim.
  apply list_elem_of_lookup. exists (min_element (map snd nbrs)).
  change (map fst nbrs) with (fst <$> nbrs). by rewrite list_lookup_fmap, Hi.
Qed.

Lemma merge_point_frame pt acc j q :
  acc !! j = Some q -> j ∉ matches pt -> fst (merge_point' pt acc) !! j = Some q.
Proof.
  intros Hj Hnot. rewrite merge_point_acc, fix_colors_lookup.
  cbv beta in Hnot.
  destruct (radiusSearch acc_xy (xy_of_cloud pt) radius 10) as [|nb nbrs] eqn:Hn.
  - rewrite (insert_or_update_none _ _ _ _ _ _ Hn). simpl.
    by apply lookup_app_l_Some.
  - rewrite (insert_or_update_some _ _ _ _ _ _ (nb :: nbrs) Hn) by discriminate.
    cbn [fst snd]. rewrite bool_decide_eq_false_2 by exact Hnot.
    destruct (is_border max_dist (map snd (nb :: nbrs))) eqn:Hb.
    + rewrite (merge_overlap_border _ _ _ _ _ _ Hb). by apply lookup_app_l_Some.
    + rewrite (merge_overlap_inner _ _ _ _ _ _ Hb).
      rewrite list_lookup_insert_ne; [assumption|].
      intros <-. apply Hnot. apply primary_is_a_match. discriminate.
Qed.

(** X18.  The merge loop only touches what a cloud point matched: an
    accumulator point that is among the radius matches of none of the cloud
    points is, after the loop, what it was before, at the same index. *)
Theorem merge_touches_only_matches (pts : list PointRGB) (acc : PointCloudXYZW)
    (j : nat) (q : PointXYZRGBW) :
  acc !! j = Some q ->
  (forall pt, In pt pts ->
     j ∉ map fst (radiusSearch acc_xy (xy_of_cloud pt) (coverage_radius max_dist) 10)) ->
  fst (merge_points' pts acc) !! j = Some q.
Proof.
  revert acc. induction pts as [|pt rest IH]; intros acc Hj Hnot; [exact Hj|].
  simpl. pose proof (merge_point_frame pt acc j q Hj (Hnot pt ltac:(by left))) as Hpt.
  destruct (merge_point' pt acc) as [acc1 e1]. specialize (IH acc1).
  destruct (merge_points' rest acc1) as [acc2 e2]. simpl in *.
  apply IH; [assumption|]. intros p Hp. apply Hnot. by right.
Qed.
End MergeFrame.

(** ** The fix-up, the contour and the border test *)

Section FixUpTwice.
Context `{KdTreeFLANN}.
Variable acc_contour_xy : PointCloudXY.
Variable cloud : PointCloudRGB.
Variable max_contour_dist : float.

Local Abbreviation fixed' := (fixed acc_contour_xy cloud max_contour_dist).
Local Abbreviation fix_colors' := (fix_colors acc_contour_xy cloud max_contour_dist).

(** X12.  Running the fix-up loop again over the same indices changes nothing
    more: a point it has re-blended is flagged and is skipped from then on,
    so an index that occurs twice is re-blended once. *)
Theorem fixup_idempotent (acc_overlap_idx : list nat) (acc : PointCloudXYZW) :
  let fix_up := fix_colors acc_contour_xy cloud max_contour_dist in
  let acc1 := fst (fix_up acc_overlap_idx acc) in
  fst (fix_up acc_overlap_idx acc1) = acc1 /\
  fst (fix_up (acc_overlap_idx ++ acc_overlap_idx) acc) = acc1.
Proof.
  intros fix_up acc1. unfold acc1, fix_up. split.
  - apply list_eq. intros j. rewrite !fix_colors_lookup.
    destruct (bool_decide (j ∈ acc_overlap_idx)); [|reflexivity].
    destruct (acc !! j) as [q|]; [|reflexivity]. simpl. by rewrite fixed_idem.
  - apply list_eq. intros j. rewrite !fix_colors_lookup.
    destruct (bool_decide (j ∈ acc_overlap_idx)) eqn:Hj.
    + apply bool_decide_eq_true in Hj.
      rewrite bool_decide_eq_true_2; [reflexivity|]. apply elem_of_app. by left.
    + apply bool_decide_eq_false in Hj.
      rewrite bool_decide_eq_false_2; [reflexivity|].
      intros [?|?]%elem_of_app; contradiction.
Qed.
End FixUpTwice.

Section EmptyContour.
Context `{KdTreeFLANN}.
Variable acc_xy : PointCloudXY.
Variable acc_contour_xy : PointCloudXY.
Variable cloud : PointCloudRGB.
Variable max_dist : float.
Variable max_contour_dist : float.

Local Abbreviation radius := (coverage_radius max_dist).
Local Abbreviation insert_or_update' :=
  (insert_or_update acc_xy acc_contour_xy max_dist max_contour_dist).
Local Abbreviation merge_overlap' := (merge_overlap acc_contour_xy max_dist max_contour_dist).
Local Abbreviation merge_point' :=
  (merge_point acc_xy acc_contour_xy cloud max_dist max_contour_dist).
Local Abbreviation merge_points' :=
  (merge_points acc_xy acc_contour_xy cloud max_dist max_contour_dist).
Local Abbreviation fix_color' := (fix_color acc_contour_xy cloud max_contour_dist).
Local Abbreviation fix_colors' := (fix_colors acc_contour_xy cloud max_contour_dist).

Hypothesis no_contour : forall sp, nearestKSearch acc_contour_xy sp 1 = [].

Lemma fix_color_no_contour i acc : fix_color' i acc = (acc, []).
Proof.
  unfold fix_color. destruct (F32.eqb _ _); [reflexivity|].
  destruct (nearestKSearch (cloud_xy cloud) _ 1) as [|[ci d] ?]; [reflexivity|].
  by rewrite no_contour.
Qed.

Lemma fix_colors_no_contour idxs acc : fix_colors' idxs acc = (acc, []).
Proof.
  revert acc. induction idxs as [|i rest IH]; intros acc; [reflexivity|].
  simpl. by rewrite fix_color_no_contour, IH.
Qed.

Lemma merge_point_no_contour pt acc :
  let r := merge_point' pt acc in
  Forall (fun e => e = EvWarn \/ exists b, e = EvBorderTest b) (snd r) /\
  forall q', In q' (fst r) -> In (rgb q') (map rgb acc) \/ rgb q' = c_rgb pt.
Proof.
  cbv zeta. unfold merge_point, insert_or_update.
  destruct (radiusSearch acc_xy (xy_of_cloud pt) radius 10) as [|nb nbrs] eqn:Hn.
  - rewrite fix_colors_no_contour. simpl. split; [constructor|].
    intros q' [Hq | [<- | []]]%in_app_or; [left; by apply in_map | by right].
  - unfold merge_overlap, blend_point. rewrite no_contour.
    destruct (is_border max_dist (map snd (nb :: nbrs))); rewrite fix_colors_no_contour.
    + simpl. split; [repeat (constructor; [first [by left | by right; eexists]|]); constructor|].
      intros q' [Hq | [<- | []]]%in_app_or; [left; by apply in_map | by right].
    + simpl. split; [repeat (constructor; [first [by left | by right; eexists]|]); constructor|].
      intros q' Hq. apply list_elem_of_In, list_elem_of_lookup in Hq as [j Hj].
      match type of Hj with <[ ?i := ?q ]> _ !! _ = _ =>
        destruct (decide (i = j)) as [<- | Hne] end.
      * apply list_lookup_insert_Some in Hj as [(_ & <- & _) | (Hne & _)]; [by right | done].
      * rewrite list_lookup_insert_ne in Hj by assumption.
        left. apply in_map, list_elem_of_In, list_elem_of_lookup. eauto.
Qed.

(** X13.  With no contour to measure against, the loop never evaluates a blend
    weight: it warns, overwrites or appends with the cloud point's own
    colour, and the fix-up changes nothing, neither a colour nor a flag, so
    that a turn of the loop is its insert-or-update step alone.  Every
    colour in the result is a colour the accumulator or the cloud already
    had. *)
Theorem no_contour_no_blend (pts : list PointRGB) (acc : PointCloudXYZW) :
  let r := merge_points' pts acc in
  Forall (fun e => e = EvWarn \/ exists b, e = EvBorderTest b) (snd r) /\
  (forall q', In q' (fst r) -> In (rgb q') (map rgb acc) \/ In (rgb q') (map c_rgb pts)) /\
  existsb (fun e => match e with EvAlpha => true | _ => false end) (snd r) = false /\
  (forall acc_overlap_idx a,
     fix_colors acc_contour_xy cloud max_contour_dist acc_overlap_idx a = (a, [])) /\
  (forall pt a,
     merge_point' pt a = (fst (fst (insert_or_update' pt a)), snd (insert_or_update' pt a))).
Proof.
  assert (Hmain : forall pts acc,
            Forall (fun e => e = EvWarn \/ exists b, e = EvBorderTest b)
                   (snd (merge_points' pts acc)) /\
            (forall q', In q' (fst (merge_points' pts acc)) ->
                        In (rgb q') (map rgb acc) \/ In (rgb q') (map c_rgb pts))).
  { clear pts acc. induction pts as [|pt rest IH]; intros acc.
    - simpl. split; [constructor | by left; apply in_map].
    - simpl. destruct (merge_point_no_contour pt acc) as [He Hc].
      destruct (merge_point' pt acc) as [acc1 e1]. specialize (IH acc1).
      destruct (merge_points' rest acc1) as [acc2 e2]. simpl in *.
      destruct IH as [He2 Hc2]. split; [by apply Forall_app|].
      intros q' Hq. destruct (Hc2 q' Hq) as [Hin | Hin]; [|by right; right].
      apply in_map_iff in Hin as (q1 & Hrgb & Hq1).
      destruct (Hc q1 Hq1) as [Hacc | Hpt]; [left | right; left]; congruence. }
  intros r. destruct (Hmain pts acc) as [He Hc].
  split; [exact He|]. split; [exact Hc|]. split; [|split].
  - apply not_true_is_false. intros Hex. apply existsb_exists in Hex as (e & He' & Hm).
    rewrite Forall_forall in He. apply list_elem_of_In in He'.
    destruct (He e He') as [-> | [b ->]]; discriminate.
  - apply fix_colors_no_contour.
  - intros pt a. unfold merge_point.
    destruct (insert_or_update' pt a) as [[a1 idx] e1].
    rewrite fix_colors_no_contour. simpl. by rewrite app_nil_r.
Qed.
End EmptyContour.

Section PrimaryMatch.
Variable max_dist : float.

(** X14.  When the border test fails and no squared distance is a NaN, the
    match that [min_element] picks, the one that is overwritten, is itself
    within [max_dist]. *)
Theorem overwritten_match_within_max_dist (neighbor_squared_dist : list float) :
  is_border max_dist neighbor_squared_dist = false ->
  Forall (fun d => d <> S754_nan) neighbor_squared_dist ->
  exists d_min,
    neighbor_squared_dist !! min_element neighbor_squared_dist = Some d_min /\
    F32.ltb d_min (F32.mul max_dist max_dist) = true.
Proof.
  intros Hb Hnan.
  assert (Hne : neighbor_squared_dist <> []) by (intros ->; discriminate).
  destruct (min_element_least _ Hne) as (d_min & Hmin & Hleast).
  exists d_min. split; [exact Hmin|].
  unfold is_border in Hb. apply not_true_iff_false in Hb.
  destruct (F32.ltb d_min (F32.mul max_dist max_dist)) eqn:Hd; [reflexivity|].
  exfalso. apply Hb. apply forallb_forall. intros d Hd0. apply negb_true_iff.
  destruct (F32.ltb d (F32.mul max_dist max_dist)) eqn:Hlt; [|reflexivity].
  rewrite Forall_forall in Hnan.
  assert (Hdm : d_min <> S754_nan) by (apply Hnan; by eapply list_elem_of_lookup_2).
  destruct (ltb_cotrans d d_min _ Hlt Hdm) as [Hlt' | Hlt']; [|congruence].
  apply list_elem_of_In in Hd0. rewrite (Hleast d Hd0) in Hlt'. discriminate.
Qed.
End PrimaryMatch.

Section MaxContour.
Context `{KdTreeFLANN}.
Variable acc_xy : PointCloudXY.
Variable acc_contour_xy : PointCloudXY.
Variable max_dist : float.

Local Abbreviation radius := (coverage_radius max_dist).
Local Abbreviation step := (max_contour_step acc_xy acc_contour_xy max_dist).
Local Abbreviation contour_dist' := (contour_dist acc_xy acc_contour_xy max_dist).

Lemma max_contour_step_dist m pt :
  step m pt = match contour_dist' pt with
              | Some dist => if F32.ltb m dist then dist else m
              | None => m
              end.
Proof.
  unfold max_contour_step, contour_dist.
  destruct (radiusSearch _ _ _ _); [reflexivity|].
  by destruct (nearestKSearch _ _ _) as [|[? ?] ?].
Qed.

Lemma fold_max_contour (pts : list PointRGB) (m : float) :
  m <> S754_nan -> F32.ltb m f_zero = false ->
  let m' := fold_left step pts m in
  m' <> S754_nan /\ F32.ltb m' f_zero = false /\
  F32.ltb m' m = false /\
  (forall pt dist, In pt pts -> contour_dist' pt = Some dist -> F32.ltb m' dist = false) /\
  (m' = m \/ exists pt, In pt pts /\ contour_dist' pt = Some m').
Proof.
  revert m. induction pts as [|pt rest IH]; intros m Hnan Hpos; simpl.
  { repeat split; auto using ltb_irrefl. by intros ? ? []. }
  assert (Hstep : step m pt <> S754_nan /\ F32.ltb (step m pt) f_zero = false /\
                  F32.ltb (step m pt) m = false /\
                  (forall dist, contour_dist' pt = Some dist -> F32.ltb (step m pt) dist = false) /\
                  (step m pt = m \/ contour_dist' pt = Some (step m pt))).
  { rewrite max_contour_step_dist. destruct (contour_dist' pt) as [dist|].
    2: { repeat split; auto using ltb_irrefl. discriminate. }
    destruct (F32.ltb m dist) eqn:Hlt.
    - repeat split.
      + intros ->. by rewrite ltb_nan_r in Hlt.
      + destruct (F32.ltb dist f_zero) eqn:H0; [|reflexivity].
        by rewrite (ltb_trans _ _ _ Hlt H0) in Hpos.
      + by apply ltb_asym.
      + intros ? [= <-]. apply ltb_irrefl.
      + by right.
    - repeat split; auto using ltb_irrefl. by intros ? [= <-]. }
  destruct Hstep as (Hn1 & Hp1 & Hge & Hub & Hwit).
  destruct (IH (step m pt) Hn1 Hp1) as (Hn2 & Hp2 & Hge2 & Hub2 & Hwit2).
  set (m2 := fold_left step rest (step m pt)) in *.
  assert (Hmono : forall d, F32.ltb (step m pt) d = false -> F32.ltb m2 d = false).
  { intros d Hd. destruct (F32.ltb m2 d) eqn:Hm2; [|reflexivity].
    destruct (ltb_cotrans m2 (step m pt) d Hm2 Hn1) as [Hc | Hc]; congruence. }
  repeat split; auto.
  - intros p dist [<- | Hin] Hdist; [apply Hmono; by apply Hub | by eapply Hub2].
  - destruct Hwit2 as [-> | (p & Hp & Hd)].
    + destruct Hwit as [-> | Hd]; [by left | right; exists pt; split; [by left | assumption]].
    + right. exists p. split; [by right | assumption].
Qed.

(** X15.  [max_contour_dist] as the first loop leaves it: never a NaN, never
    below zero, not below the contour distance of any cloud point that has a
    match, and either still 0 or the contour distance of one of them. *)
Theorem max_contour_dist_is_largest (cloud : PointCloudRGB) :
  let m := get_max_contour_dist acc_xy acc_contour_xy cloud max_dist in
  m <> S754_nan /\ F32.ltb m f_zero = false /\
  (forall pt dist, In pt cloud -> contour_dist' pt = Some dist -> F32.ltb m dist = false) /\
  (m = f_zero \/ exists pt, In pt cloud /\ contour_dist' pt = Some m).
Proof.
  intros m. unfold m, get_max_contour_dist.
  destruct (fold_max_contour cloud f_zero) as (H1 & H2 & _ & H4 & H5); [discriminate | reflexivity|].
  auto.
Qed.
End MaxContour.

(** ** The size of the accumulator *)

Section SizeBound.
Context `{KdTreeFLANN}.
Variable clean : PointCloudRGB -> PointCloudRGB.
Variable Affine3d : Type.
Variable relative_pose : Transform -> Transform -> Affine3d.
Variable inverse : Affine3d -> Affine3d.
Variable transformPointCloud : PointCloudXYZW -> Affine3d -> PointCloudXYZW.
Variable contour : float -> PointCloudXYZW -> PointCloudXY.
Variable params : Params.
Variable fs : FileSystem.

Local Abbreviation accumulate' :=
  (accumulate clean Affine3d relative_pose inverse transformPointCloud contour params fs).
Local Abbreviation merge_pass' :=
  (merge_pass Affine3d relative_pose inverse transformPointCloud contour).

Hypothesis transform_length :
  forall acc t, length (transformPointCloud acc t) = length acc.

Lemma merge_pass_length tf0 tfi cloud acc :
  length acc <= length (merge_pass' tf0 tfi cloud acc) <= length acc + length cloud.
Proof.
  unfold merge_pass. rewrite transform_length.
  match goal with |- context [merge_cloud ?axy ?cxy ?cl ?md ?mcd ?a] =>
    pose proof (merge_points_length axy cxy cl md mcd cl a) as Hlen;
    pose proof (filter_length_le (adds_point axy md) cl) as Hf;
    change (merge_cloud axy cxy cl md mcd a) with (merge_points axy cxy cl md mcd cl a)
  end.
  unfold reset_w in *. rewrite length_map, transform_length in Hlen. lia.
Qed.

(** X10.  Provided the rigid transform keeps the number of points, the loop over
    the poses never shrinks the accumulator, and what it adds is at most
    the number of points of the cleaned clouds it could load. *)
Theorem accumulate_size_bound tf0 poses acc :
  length acc <= length (accumulate' tf0 poses acc)
             <= length acc + sum_list (length <$> cleaned_clouds clean params fs poses).
Proof.
  revert acc. induction poses as [|[name tfi] rest IH]; intros acc.
  - simpl. lia.
  - simpl. unfold cleaned_clouds. cbn [omap list_omap fst].
    fold (cleaned_clouds clean params fs rest).
    destruct (fs_pcd fs (String.append (clouds_dir params) name)) as [in_cloud|]; simpl.
    + destruct (Nat.eqb_spec (length acc) 0) as [H0 | Hn].
      * specialize (IH (map to_XYZW (clean in_cloud))). rewrite length_map in IH.
        unfold fmap in IH. lia.
      * pose proof (merge_pass_length tf0 tfi (clean in_cloud) acc).
        specialize (IH (merge_pass' tf0 tfi (clean in_cloud) acc)).
        unfold fmap in IH. lia.
    + apply IH.
Qed.
End SizeBound.

(** ** Colours *)

Section Colours.
Local Open Scope Z_scope.

(** Unpacking what was packed gives the three channels back. *)
Lemma unpack_pack (r g b : Z) :
  0 <= r < 256 -> 0 <= g < 256 -> 0 <= b < 256 ->
  red (pack_rgb r g b) = r /\ green (pack_rgb r g b) = g /\ blue (pack_rgb r g b) = b.
Proof.
  intros Hr Hg Hb. unfold red, green, blue, pack_rgb. repeat split.
  all: apply Z.bits_inj'; intros n Hn.
  all: rewrite Z.land_spec, ?Z.shiftr_spec, !Z.lor_spec, !Z.shiftl_spec, mask_bits by lia.
  all: destruct (Z.ltb_spec n 8) as [Hlt | Hge].
  - rewrite (byte_bits_high g (n + 16 - 8)), (byte_bits_high b (n + 16)) by lia.
    replace (n + 16 - 16) with n by lia. by rewrite !orb_false_r, andb_true_r.
  - rewrite andb_false_r. symmetry. by apply byte_bits_high.
  - rewrite (Z.testbit_neg_r r (n + 8 - 16)), (byte_bits_high b (n + 8)) by lia.
    replace (n + 8 - 8) with n by lia. by rewrite orb_false_r, andb_true_r.
  - rewrite andb_false_r. symmetry. by apply byte_bits_high.
  - rewrite (Z.testbit_neg_r r (n - 16)), (Z.testbit_neg_r g (n - 8)) by lia.
    by rewrite andb_true_r.
  - rewrite andb_false_r. symmetry. by apply byte_bits_high.
Qed.

Lemma pack_range (r g b : Z) :
  0 <= r < 256 -> 0 <= g < 256 -> 0 <= b < 256 -> 0 <= pack_rgb r g b < 2 ^ 24.
Proof.
  intros Hr Hg Hb. unfold pack_rgb.
  assert (H0 : 0 <= Z.lor (Z.lor (Z.shiftl r 16) (Z.shiftl g 8)) b).
  { rewrite !Z.lor_nonneg, !Z.shiftl_nonneg. lia. }
  split; [exact H0|].
  destruct (Z.eq_dec (Z.lor (Z.lor (Z.shiftl r 16) (Z.shiftl g 8)) b) 0) as [-> | Hne]; [lia|].
  apply Z.log2_lt_pow2; [lia|].
  rewrite !Z.log2_lor by (rewrite ?Z.lor_nonneg, ?Z.shiftl_nonneg; lia).
  assert (Hlog : forall v, 0 <= v < 256 -> Z.log2 v < 8).
  { intros v Hv. destruct (Z.eq_dec v 0) as [-> | ?]; [simpl; lia|].
    apply Z.log2_lt_pow2; lia. }
  assert (Hsh : forall v k, 0 <= v < 256 -> 0 <= k -> Z.log2 (Z.shiftl v k) < 8 + k).
  { intros v k Hv Hk. destruct (Z.eq_dec v 0) as [-> | ?].
    - rewrite Z.shiftl_0_l. simpl. lia.
    - rewrite Z.log2_shiftl by lia. specialize (Hlog v Hv). lia. }
  pose proof (Hsh r 16 Hr ltac:(lia)). pose proof (Hsh g 8 Hg ltac:(lia)).
  pose proof (Hlog b Hb). lia.
Qed.

(** X16.  The colour a blend stores decodes to the three blended channels,
    and its top byte is clear, whatever the weight and the two colours:
    each channel is a [uint8_t], so packing loses nothing. *)
Theorem blend_rgb_channels (max_contour_dist contour_sq : float) (acc_rgb cloud_rgb : Z) :
  let alpha := blend_alpha max_contour_dist contour_sq in
  let c := blend_rgb max_contour_dist contour_sq acc_rgb cloud_rgb in
  red c = blend_channel alpha (red acc_rgb) (red cloud_rgb) /\
  green c = blend_channel alpha (green acc_rgb) (green cloud_rgb) /\
  blue c = blend_channel alpha (blue acc_rgb) (blue cloud_rgb) /\
  0 <= c < 2 ^ 24.
Proof.
  intros alpha c. unfold c, blend_rgb. fold alpha.
  pose proof (blend_channel_range alpha (red acc_rgb) (red cloud_rgb)) as Hr.
  pose proof (blend_channel_range alpha (green acc_rgb) (green cloud_rgb)) as Hg.
  pose proof (blend_channel_range alpha (blue acc_rgb) (blue cloud_rgb)) as Hb.
  destruct (unpack_pack _ _ _ Hr Hg Hb) as (H1 & H2 & H3).
  repeat split; try assumption; by apply pack_range.
Qed.

Lemma blend_endpoint_table :
  forallb (fun a => forallb (fun c =>
      (blend_channel f_one a c =? c) && (blend_channel f_zero a c =? a))
    (map Z.of_nat (seq 0 256))) (map Z.of_nat (seq 0 256)) = true.
Proof. vm_compute. reflexivity. Qed.

(** X17.  At the two ends of the weight the blend is exact: with weight 1
    the stored channel is the cloud's, with weight 0 the accumulator's. *)
Theorem blend_channel_endpoints (a c : Z) :
  0 <= a <= 255 -> 0 <= c <= 255 ->
  blend_channel f_one a c = c /\ blend_channel f_zero a c = a.
Proof.
  intros Ha Hc. pose proof blend_endpoint_table as Ht.
  rewrite forallb_forall in Ht.
  assert (Hin : forall v, 0 <= v <= 255 -> In v (map Z.of_nat (seq 0 256))).
  { intros v Hv. apply in_map_iff. exists (Z.to_nat v). split; [lia|].
    apply in_seq. lia. }
  specialize (Ht a (Hin a Ha)). rewrite forallb_forall in Ht.
  specialize (Ht c (Hin c Hc)). apply andb_true_iff in Ht as [H1 H2].
  split; by apply Z.eqb_eq.
Qed.
End Colours.

(** ** The properties at work on the sample scenes *)

Lemma blend_channel_endpoints_witness :
  blend_channel f_one 16 240 = 240%Z /\ blend_channel f_zero 16 240 = 16%Z.
Proof. apply (blend_channel_endpoints 16 240); lia. Defined.

Lemma unloadable_cloud_skipped_witness :
  @accumulate LinearScan Samples.keep unit Samples.relative_pose Samples.inverse
    Samples.transformPointCloud Samples.contour Scenes.params Scenes.truncated_poses
    Samples.pose0 [("nope.pcd"%string, Samples.pose0); ("cloud0.pcd"%string, Samples.pose0)] [] =
  @accumulate LinearScan Samples.keep unit Samples.relative_pose Samples.inverse
    Samples.transformPointCloud Samples.contour Scenes.params Scenes.truncated_poses
    Samples.pose0 [("cloud0.pcd"%string, Samples.pose0)] [].
Proof.
  apply (@unloadable_cloud_skipped LinearScan Samples.keep unit Samples.relative_pose
           Samples.inverse Samples.transformPointCloud Samples.contour
           Scenes.params Scenes.truncated_poses Samples.pose0 [] "nope.pcd").
  reflexivity.
Defined.

Lemma no_cloud_loaded_still_saves_witness :
  @build3D LinearScan decimal_cast Samples.garbage Samples.keep unit Samples.relative_pose
    Samples.inverse Samples.transformPointCloud Samples.contour Samples.final_filter
    Scenes.params Samples.missing_cloud =
  Returns {| loaded := ["/data/run/clouds/cloud0.pcd"%string];
             saved := [("/data/run/reconstruction.pcd"%string, [])] |}.
Proof.
  apply (@no_cloud_loaded_still_saves LinearScan decimal_cast Samples.garbage Samples.keep unit
           Samples.relative_pose Samples.inverse Samples.transformPointCloud Samples.contour
           Samples.final_filter Scenes.params Samples.missing_cloud true
           [("cloud0.pcd"%string, Samples.garbage_pose 0)]).
  - reflexivity.
  - intros p _. reflexivity.
Defined.

Lemma only_cloud_is_output_witness :
  @build3D LinearScan decimal_cast Samples.garbage Samples.keep unit Samples.relative_pose
    Samples.inverse Samples.transformPointCloud Samples.contour Samples.final_filter
    Scenes.params Scenes.truncated_poses =
  Returns {| loaded := ["/data/run/clouds/cloud0.pcd"%string];
             saved := [("/data/run/reconstruction.pcd"%string, [Scenes.inner_pt])] |}.
Proof.
  apply (@only_cloud_is_output LinearScan decimal_cast Samples.garbage Samples.keep unit
           Samples.relative_pose Samples.inverse Samples.transformPointCloud Samples.contour
           Samples.final_filter Scenes.params Scenes.truncated_poses true
           [] "cloud0.pcd" (Samples.garbage_pose 0) [] [Scenes.inner_pt]).
  - reflexivity.
  - intros p [].
  - reflexivity.
Defined.

Lemma no_contour_no_blend_witness :
  existsb (fun e => match e with EvAlpha => true | _ => false end)
    (snd (@merge_points LinearScan (map xy_of_acc Scenes.inner_acc) [] [Scenes.inner_pt]
            Scenes.max_dist f_zero [Scenes.inner_pt] Scenes.inner_acc)) = false.
Proof.
  assert (Hnone : forall sp, @nearestKSearch LinearScan [] sp 1 = []) by reflexivity.
  destruct (@no_contour_no_blend LinearScan (map xy_of_acc Scenes.inner_acc) []
              [Scenes.inner_pt] Scenes.max_dist f_zero Hnone [Scenes.inner_pt] Scenes.inner_acc)
    as (_ & _ & Hex & _).
  exact Hex.
Defined.

Lemma overwritten_match_within_max_dist_witness :
  exists d_min,
    map snd Scenes.inner_nbrs !! min_element (map snd Scenes.inner_nbrs) = Some d_min /\
    F32.ltb d_min (F32.mul Scenes.max_dist Scenes.max_dist) = true.
Proof.
  apply (overwritten_match_within_max_dist Scenes.max_dist (map snd Scenes.inner_nbrs)).
  - vm_compute. reflexivity.
  - assert (Hd : map snd Scenes.inner_nbrs =
                 [S754_zero false; S754_finite false 8796094 (-43)])
      by (vm_compute; reflexivity).
    rewrite Hd. repeat constructor; discriminate.
Defined.

Lemma accumulate_size_bound_witness :
  length (@nil PointXYZRGBW) <=
  length (@accumulate LinearScan Samples.keep unit Samples.relative_pose Samples.inverse
            Samples.transformPointCloud Samples.contour Scenes.params Samples.same_cloud_twice
            Samples.pose0
            [("cloud0.pcd"%string, Samples.pose0); ("cloud0.pcd"%string, Samples.pose0)] []) <=
  length (@nil PointXYZRGBW) +
  sum_list (length <$> cleaned_clouds Samples.keep Scenes.params Samples.same_cloud_twice
                         [("cloud0.pcd"%string, Samples.pose0);
                          ("cloud0.pcd"%string, Samples.pose0)]).
Proof.
  apply (@accumulate_size_bound LinearScan Samples.keep unit Samples.relative_pose
           Samples.inverse Samples.transformPointCloud Samples.contour
           Scenes.params Samples.same_cloud_twice).
  intros acc t. reflexivity.
Defined.

Lemma merge_touches_only_matches_witness :
  fst (@merge_points LinearScan (map xy_of_acc Scenes.inner_acc) Scenes.inner_contour
         [Scenes.far_pt] Scenes.max_dist f_zero [Scenes.far_pt] Scenes.inner_acc) !! 1 =
  Some (mkW (Scenes.milli 1) (Scenes.milli 0) (F32.of_int 3) 0x405060 f_zero).
Proof.
  apply (@merge_touches_only_matches LinearScan (map xy_of_acc Scenes.inner_acc)
           Scenes.inner_contour [Scenes.far_pt] Scenes.max_dist f_zero
           [Scenes.far_pt] Scenes.inner_acc 1); [reflexivity|].
  intros pt [<- | []].
  assert (Hn : @radiusSearch LinearScan (map xy_of_acc Scenes.inner_acc)
                 (xy_of_cloud Scenes.far_pt) (coverage_radius Scenes.max_dist) 10 = [])
    by (vm_compute; reflexivity).
  rewrite Hn. apply not_elem_of_nil.
Defined.

(** A lock file that is never removed hangs the run; one that is removed
    after three tests does not, and the run goes on as without it. *)
Lemma lock_file_samples :
  @build3D LinearScan decimal_cast Samples.garbage Samples.keep unit Samples.relative_pose
    Samples.inverse Samples.transformPointCloud Samples.contour Samples.final_filter
    Scenes.params Samples.stuck_lock = Diverges /\
  @build3D LinearScan decimal_cast Samples.garbage Samples.keep unit Samples.relative_pose
    Samples.inverse Samples.transformPointCloud Samples.contour Samples.final_filter
    Scenes.params Samples.released_lock =
  Returns {| loaded := ["/data/run/clouds/cloud0.pcd"%string];
             saved := [("/data/run/reconstruction.pcd"%string, [Scenes.inner_pt])] |}.
Proof. split; reflexivity. Qed.
